(** * Finance dashboard front end: the Lorenz derivation and the refresh protocol

    A shallow embedding of the client logic of [App.js] and [api.js]:
    - [Lorenz]: the [lorenzData] memo, which turns the amount histogram
      into a cumulative-share curve, on exact rationals;
    - [Dashboard]: the view state, [refreshAll], [onUpload],
      [startPolling] and the mount effect with its cleanup;
    - [Binary64]: the arithmetic of JavaScript numbers, each operation
      rounded to the nearest binary64 value;
    - [Lorenz64]: the [lorenzData] memo on that arithmetic.

    Numbers.  A JavaScript number is a binary64 float, and the memo is
    given in two readings.  The buckets of the histogram are decoded
    from a JSON body; their fields are rationals ([Qc]).  [Lorenz]
    computes the sums, products and quotients of the memo exactly; a
    quotient is a [number], a rational or one of the IEEE special
    values that a zero divisor produces.  This is the curve that the
    arithmetic of the memo defines, and it is what the code returns as
    long as no operation rounds or overflows, which is the case of the
    scenarios ([exact_on_scenarios]); the order of the sorted buckets
    is the one of the code whenever the midpoints are binary64 values
    ([sorted_of_exact]).  [Lorenz64] computes as the
    engine does: the fields are read as the nearest binary64 values,
    and every sum, product and quotient is the exact result rounded to
    the nearest binary64 value, ties to even, with overflow to an
    infinity and the IEEE rules for the infinities and [NaN].  A sum or
    a product of finite numbers can therefore be infinite there, and a
    difference of infinities is [NaN].  The properties over all
    histograms that depend on the value of a sum or of a quotient
    (monotonicity, the unit square, the division by a zero total, the
    last computed point) are stated on [Lorenz64]. *)

From Stdlib Require Import QArith Qcanon Qround Lqa.
From Stdlib Require SpecFloat.
From stdpp Require Import base numbers list sorting strings.

Local Open Scope Qc_scope.

Module Lorenz.

(** ** Numbers *)

(** The value of a JavaScript arithmetic expression. *)
Inductive number : Type :=
  | Fin (q : Qc)
  | PosInf
  | NegInf
  | NaN.

#[global] Instance number_eq_dec : EqDecision number.
Proof. solve_decision. Defined.

(** [Number.isFinite]. *)
Definition is_finite (x : number) : bool :=
  match x with Fin _ => true | _ => false end.

(** [a / b] on finite operands: a zero divisor gives [NaN] for [0 / 0]
    and an infinity of the sign of the dividend otherwise. *)
Definition js_div (a b : Qc) : number :=
  if decide (b = 0) then
    if decide (a = 0) then NaN
    else if decide (0 < a) then PosInf else NegInf
  else Fin (a / b).

(** [x <= y] on numbers: every comparison with [NaN] is false. *)
Definition num_le (x y : number) : Prop :=
  match x, y with
  | NaN, _ | _, NaN => False
  | NegInf, _ => True
  | _, PosInf => True
  | Fin a, Fin b => a ≤ b
  | _, _ => False
  end.

(** ** Data *)

(** One histogram bucket, [{mid, count}].  [count = None] is a bucket
    whose [count] field is missing ([undefined]) or [null]. *)
Record bucket : Type := Bucket {
  mid : Qc;
  count : option Qc
}.

(** One point of the curve, [{p, L}]. *)
Record point : Type := Point {
  p : number;
  L : number
}.

#[global] Instance bucket_eq_dec : EqDecision bucket.
Proof. solve_decision. Defined.

#[global] Instance point_eq_dec : EqDecision point.
Proof. solve_decision. Defined.

(** [d.count || 0]: the count when it is truthy, [0] when it is missing
    or is the falsy number [0]. *)
Definition count_or_0 (d : bucket) : Qc :=
  match count d with
  | Some c => if decide (c = 0) then 0 else c
  | None => 0
  end.


(** ** [Array.prototype.sort] with a compare function

    The sort is stable, and for a consistent compare function (the
    difference of two finite numbers always is one) the result is the
    sorted permutation that keeps ties in their input order.  [insert]
    puts [x], which precedes all of [l] in the input, before the first
    element that does not compare strictly below it. *)
Section js_sort.
Context {A : Type} (comparefn : A → A → Qc).

Fixpoint insert (x : A) (l : list A) : list A :=
  match l with
  | [] => [x]
  | y :: l' =>
      if decide (0 < comparefn x y) then y :: insert x l' else x :: y :: l'
  end.

Definition js_sort (l : list A) : list A := foldr insert [] l.
End js_sort.

(** ** [lorenzData] *)

(** [(a, b) => a.mid - b.mid]. *)
Definition by_mid (a b : bucket) : Qc := mid a - mid b.

(** [sorted.reduce((s, d) => s + (d.count || 0), 0)]. *)
Definition totalCount (sorted : list bucket) : Qc :=
  fold_left (λ s d, s + count_or_0 d) sorted 0.

(** [sorted.reduce((s, d) => s + (d.mid * (d.count || 0)), 0)]. *)
Definition totalAmount (sorted : list bucket) : Qc :=
  fold_left (λ s d, s + mid d * count_or_0 d) sorted 0.

(** The [sorted.map] callback threads the two running sums [cumCount]
    and [cumAmount] through the buckets in order. *)
Fixpoint walk (totalCount totalAmount cumCount cumAmount : Qc)
    (sorted : list bucket) : list point :=
  match sorted with
  | [] => []
  | d :: rest =>
      let c := count_or_0 d in
      let cumCount := cumCount + c in
      let cumAmount := cumAmount + mid d * c in
      Point (js_div cumCount totalCount) (js_div cumAmount totalAmount)
        :: walk totalCount totalAmount cumCount cumAmount rest
  end.

(** The memo body.  The guard [!amountHistogram?.length] is also taken
    by a [null] or [undefined] histogram, which the list type leaves
    out. *)
Definition lorenzData (amountHistogram : list bucket) : list point :=
  match amountHistogram with
  | [] => []
  | _ :: _ =>
      let sorted := js_sort by_mid amountHistogram in
      let totalCount := totalCount sorted in
      let totalAmount := totalAmount sorted in
      let pts := walk totalCount totalAmount 0 0 sorted in
      Point (Fin 0) (Fin 0) :: pts ++ [Point (Fin 1) (Fin 1)]
  end.

(** ** Vocabulary of the properties *)

Definition point_le (a b : point) : Prop :=
  num_le (p a) (p b) ∧ num_le (L a) (L b).

(** Non-decreasing in both coordinates: every point is below every later
    point. *)
Definition non_decreasing (curve : list point) : Prop :=
  StronglySorted point_le curve.


(** Ascending by midpoint. *)
Definition mid_le (a b : bucket) : Prop := mid a ≤ mid b.


(** A point of the unit square. *)
Definition in_unit_square (q : point) : Prop :=
  num_le (Fin 0) (p q) ∧ num_le (p q) (Fin 1)
  ∧ num_le (Fin 0) (L q) ∧ num_le (L q) (Fin 1).

(** Literals. *)
Definition bkt (m c : Z) : bucket := Bucket (Qc_of_Z m) (Some (Qc_of_Z c)).
Definition frac (a : Z) (b : positive) : number := Fin (Q2Qc (a # b)).
Definition pt (x y : number) : point := Point x y.

End Lorenz.

(** * The dashboard view *)

Module Dashboard.

Local Open Scope Z_scope.

(** ** Values *)

#[local] Unset Elimination Schemes.

(** A decoded response body ([r.data]) or a piece of view state. *)
Inductive json : Type :=
  | JUndefined
  | JNull
  | JNum (n : Z)
  | JStr (s : string)
  | JArr (items : list json)
  | JObj (fields : list (string * json)).
#[local] Set Elimination Schemes.

(** The file picked in the upload control. *)
Record File : Type := { file_name : string }.

(** ** [api.js] *)

Inductive verb : Type := GET | POST.

Inductive payload : Type :=
  | NoBody
  | FormData (file : File)
  | JsonBody (body : json).

Record request : Type := Request {
  method : verb;
  url : string;
  params : list (string * json);
  data : payload;
  timeout : Z
}.

(** [axios.create({ timeout: 60000 })]. *)
Definition default_timeout : Z := 60000.

Definition api_get (url : string) (params : list (string * json))
    (timeout : Z) : request :=
  Request GET url params NoBody timeout.

Definition getSummary : request := api_get "/summary" [] default_timeout.
Definition getCategorySpend : request :=
  api_get "/category-spend" [] default_timeout.
Definition getFraudTrend : request := api_get "/fraud-trend" [] default_timeout.
Definition getTransactions (params : list (string * json)) : request :=
  api_get "/transactions" params default_timeout.
Definition uploadCSV (file : File) : request :=
  Request POST "/ingest/csv" [] (FormData file) 300000.
Definition addTransaction (body : json) : request :=
  Request POST "/transactions" [] (JsonBody body) default_timeout.
Definition getAmountByGender : request :=
  api_get "/amount-by-gender" [] default_timeout.
Definition getFraudByCategory (limit : Z) : request :=
  api_get "/fraud-by-category" [("limit", JNum limit)] default_timeout.
Definition getAvgAmountByCategory (limit : Z) : request :=
  api_get "/avg-amount-by-category" [("limit", JNum limit)] default_timeout.
Definition getTopMerchants (limit : Z) : request :=
  api_get "/top-merchants" [("limit", JNum limit)] default_timeout.
Definition getAmountHistogram (bins : Z) (mode : string) : request :=
  api_get "/amount-histogram" [("bins", JNum bins); ("mode", JStr mode)] 120000.

(** ** Promises

    A promise is modelled by what it settles to.  [await] of a rejected
    promise throws, and a throw abandons the rest of an async function. *)
Inductive result (A : Type) : Type :=
  | Ok (value : A)
  | Throw (reason : string).
Arguments Ok {A} value.
Arguments Throw {A} reason.

Definition promise : Type → Type := result.

(** What the server and the network make of each request. *)
Definition network : Type := request → promise json.

Definition is_ok {A} (r : result A) : bool :=
  match r with Ok _ => true | Throw _ => false end.

(** [Promise.all]: the values in order when every promise resolves, and
    a rejection as soon as one of them rejects (here the first in array
    order; the reason is not looked at by any caller). *)
Fixpoint Promise_all {A} (ps : list (promise A)) : promise (list A) :=
  match ps with
  | [] => Ok []
  | Throw e :: _ => Throw e
  | Ok v :: ps =>
      match Promise_all ps with
      | Ok vs => Ok (v :: vs)
      | Throw e => Throw e
      end
  end.

(** ** The component instance *)

(** The state cells of [App]. *)
Record view_state : Type := ViewState {
  summary : json;
  categorySpend : json;
  fraudTrend : json;
  table : json;
  file : option File;
  newTx : json;
  amountByGender : json;
  fraudByCategory : json;
  avgAmountByCategory : json;
  topMerchants : json;
  amountHistogram : json
}.

(** The function handed to [setInterval]. *)
Inductive callback : Type := CbRefreshAll.

Record timer : Type := Timer {
  timer_id : positive;
  timer_callback : callback;
  timer_delay : Z
}.

(** [WebSocket.readyState]. *)
Inductive ready_state : Type := CONNECTING | OPEN | CLOSING | CLOSED.

(** One mounted [App] with the part of the browser it touches:
    its state cells, [pollRef.current] (timer ids are positive, hence
    truthy), the socket [ws] of the mount effect ([None] when the
    constructor threw), the requests sent so far, the interval timers
    that are active, and counters of the [setInterval] and
    [new WebSocket] calls made. *)
Record component : Type := Component {
  view : view_state;
  pollRef : option positive;
  ws : option ready_state;
  mounted : bool;
  sent : list request;
  timers : list timer;
  intervals_set : nat;
  sockets_opened : nat
}.

Definition with_view (v : view_state) (c : component) : component :=
  Component v (pollRef c) (ws c) (mounted c) (sent c) (timers c)
    (intervals_set c) (sockets_opened c).

(** ** The monad of handlers: state and exceptions *)
Definition M (A : Type) : Type := component → result A * component.

#[global] Instance M_ret : MRet M := λ A a c, (Ok a, c).

#[global] Instance M_bind : MBind M := λ A B k m c,
  match m c with
  | (Ok a, c') => k a c'
  | (Throw e, c') => (Throw e, c')
  end.

(** Calling an endpoint function sends the request at once and yields
    the promise of its body. *)
Definition send (net : network) (r : request) : M (promise json) :=
  λ c, (Ok (net r),
        Component (view c) (pollRef c) (ws c) (mounted c) (sent c ++ [r])
          (timers c) (intervals_set c) (sockets_opened c)).

Definition await {A} (p : promise A) : M A := λ c, (p, c).

(** An async call that is not awaited: a rejection goes unhandled. *)
Definition spawn (m : M unit) : M unit := λ c, (Ok tt, (m c).2).

Definition get_view : M view_state := λ c, (Ok (view c), c).

Definition update (f : view_state → view_state) : M unit :=
  λ c, (Ok tt, with_view (f (view c)) c).

Definition setSummary (x : json) : M unit := update (λ v,
  ViewState x (categorySpend v) (fraudTrend v) (table v) (file v) (newTx v)
    (amountByGender v) (fraudByCategory v) (avgAmountByCategory v)
    (topMerchants v) (amountHistogram v)).
Definition setCategorySpend (x : json) : M unit := update (λ v,
  ViewState (summary v) x (fraudTrend v) (table v) (file v) (newTx v)
    (amountByGender v) (fraudByCategory v) (avgAmountByCategory v)
    (topMerchants v) (amountHistogram v)).
Definition setFraudTrend (x : json) : M unit := update (λ v,
  ViewState (summary v) (categorySpend v) x (table v) (file v) (newTx v)
    (amountByGender v) (fraudByCategory v) (avgAmountByCategory v)
    (topMerchants v) (amountHistogram v)).
Definition setTable (x : json) : M unit := update (λ v,
  ViewState (summary v) (categorySpend v) (fraudTrend v) x (file v) (newTx v)
    (amountByGender v) (fraudByCategory v) (avgAmountByCategory v)
    (topMerchants v) (amountHistogram v)).
Definition setFile (x : option File) : M unit := update (λ v,
  ViewState (summary v) (categorySpend v) (fraudTrend v) (table v) x (newTx v)
    (amountByGender v) (fraudByCategory v) (avgAmountByCategory v)
    (topMerchants v) (amountHistogram v)).
Definition setAmountByGender (x : json) : M unit := update (λ v,
  ViewState (summary v) (categorySpend v) (fraudTrend v) (table v) (file v)
    (newTx v) x (fraudByCategory v) (avgAmountByCategory v)
    (topMerchants v) (amountHistogram v)).
Definition setFraudByCategory (x : json) : M unit := update (λ v,
  ViewState (summary v) (categorySpend v) (fraudTrend v) (table v) (file v)
    (newTx v) (amountByGender v) x (avgAmountByCategory v)
    (topMerchants v) (amountHistogram v)).
Definition setAvgAmountByCategory (x : json) : M unit := update (λ v,
  ViewState (summary v) (categorySpend v) (fraudTrend v) (table v) (file v)
    (newTx v) (amountByGender v) (fraudByCategory v) x
    (topMerchants v) (amountHistogram v)).
Definition setTopMerchants (x : json) : M unit := update (λ v,
  ViewState (summary v) (categorySpend v) (fraudTrend v) (table v) (file v)
    (newTx v) (amountByGender v) (fraudByCategory v) (avgAmountByCategory v)
    x (amountHistogram v)).
Definition setAmountHistogram (x : json) : M unit := update (λ v,
  ViewState (summary v) (categorySpend v) (fraudTrend v) (table v) (file v)
    (newTx v) (amountByGender v) (fraudByCategory v) (avgAmountByCategory v)
    (topMerchants v) x).

(** ** [refreshAll] *)

(** The nine calls inside the array literal of [Promise.all], in order. *)
Definition refresh_requests : list request :=
  [ getSummary;
    getCategorySpend;
    getFraudTrend;
    getTransactions [("limit", JNum 20); ("offset", JNum 0)];
    getAmountByGender;
    getFraudByCategory 12;
    getAvgAmountByCategory 12;
    getTopMerchants 10;
    getAmountHistogram 20 "quantile" ].

(** Array destructuring reads by index; a missing element is
    [undefined]. *)
Definition item (i : nat) (values : list json) : json :=
  nth i values JUndefined.

(** The array literal is evaluated first, which sends the nine requests;
    then the function awaits [Promise.all] of the nine promises; the nine
    setters run after the await. *)
Definition refreshAll (net : network) : M unit :=
  p1 ← send net getSummary;
  p2 ← send net getCategorySpend;
  p3 ← send net getFraudTrend;
  p4 ← send net (getTransactions [("limit", JNum 20); ("offset", JNum 0)]);
  p5 ← send net getAmountByGender;
  p6 ← send net (getFraudByCategory 12);
  p7 ← send net (getAvgAmountByCategory 12);
  p8 ← send net (getTopMerchants 10);
  p9 ← send net (getAmountHistogram 20 "quantile");
  values ← await (Promise_all [p1; p2; p3; p4; p5; p6; p7; p8; p9]);
  setSummary (item 0 values);;
  setCategorySpend (item 1 values);;
  setFraudTrend (item 2 values);;
  setTable (item 3 values);;
  setAmountByGender (item 4 values);;
  setFraudByCategory (item 5 values);;
  setAvgAmountByCategory (item 6 values);;
  setTopMerchants (item 7 values);;
  setAmountHistogram (item 8 values).

(** ** Polling *)

(** [setInterval(callback, delay)]: a fresh positive id, and the timer
    becomes active. *)
Definition setInterval (cb : callback) (delay : Z) : M positive :=
  λ c, let id := Pos.of_succ_nat (intervals_set c) in
       (Ok id,
        Component (view c) (pollRef c) (ws c) (mounted c) (sent c)
          (timers c ++ [Timer id cb delay]) (S (intervals_set c))
          (sockets_opened c)).

(** [clearInterval(id)]. *)
Definition clearInterval (id : positive) : M unit :=
  λ c, (Ok tt,
        Component (view c) (pollRef c) (ws c) (mounted c) (sent c)
          (filter (λ t, timer_id t ≠ id) (timers c)) (intervals_set c)
          (sockets_opened c)).

Definition get_pollRef : M (option positive) := λ c, (Ok (pollRef c), c).

Definition set_pollRef (r : option positive) : M unit :=
  λ c, (Ok tt,
        Component (view c) r (ws c) (mounted c) (sent c) (timers c)
          (intervals_set c) (sockets_opened c)).

Definition startPolling : M unit :=
  current ← get_pollRef;
  match current with
  | Some _ => mret tt
  | None => id ← setInterval CbRefreshAll 5000; set_pollRef (Some id)
  end.

(** ** Upload *)

(** [disabled={!file}] on the upload button. *)
Definition upload_disabled (v : view_state) : bool :=
  match file v with None => true | Some _ => false end.

Definition onUpload (net : network) : M unit :=
  v ← get_view;
  match file v with
  | None => mret tt
  | Some f =>
      p ← send net (uploadCSV f);
      await p;;
      setFile None;;
      refreshAll net
  end.

(** ** The mount effect and the events that follow it *)

Definition set_ws (s : option ready_state) : M unit :=
  λ c, (Ok tt,
        Component (view c) (pollRef c) s (mounted c) (sent c) (timers c)
          (intervals_set c) (sockets_opened c)).

(** [new WebSocket(wsUrl)]: [ok = false] is a constructor that throws,
    which the effect catches. *)
Definition new_WebSocket (ok : bool) : M unit :=
  λ c, if ok
       then (Ok tt,
             Component (view c) (pollRef c) (Some CONNECTING) (mounted c)
               (sent c) (timers c) (intervals_set c) (S (sockets_opened c)))
       else (Throw "SyntaxError", c).

(** [try { ... } catch { handler }]. *)
Definition try_catch (body handler : M unit) : M unit :=
  λ c, match body c with
       | (Ok a, c') => (Ok a, c')
       | (Throw _, c') => handler c'
       end.

(** The body of [useEffect].  The three handlers it installs are the
    [WsMessage], [WsError] and [WsClose] cases of [step]. *)
Definition effect (ws_ok : bool) (net : network) : M unit :=
  spawn (refreshAll net);;
  try_catch (new_WebSocket ws_ok) startPolling.

(** [ws.close()]: a socket that is not yet closed starts closing, and
    its close event comes later. *)
Definition ws_close : M unit :=
  λ c, match ws c with
       | Some CONNECTING | Some OPEN => set_ws (Some CLOSING) c
       | _ => (Ok tt, c)
       end.

(** The function returned by the effect. *)
Definition cleanup : M unit :=
  ws_close;;
  current ← get_pollRef;
  match current with
  | Some id => clearInterval id
  | None => mret tt
  end.

Definition set_mounted (b : bool) : M unit :=
  λ c, (Ok tt,
        Component (view c) (pollRef c) (ws c) b (sent c) (timers c)
          (intervals_set c) (sockets_opened c)).

(** What can happen to a mounted view: the socket opens, delivers a
    message, an error or its close event; an interval timer fires; the
    view unmounts. *)
Inductive event : Type :=
  | WsOpen
  | WsMessage (net : network)
  | WsError
  | WsClose
  | Tick (id : positive) (net : network)
  | Unmount.

Definition run_callback (cb : callback) (net : network) : M unit :=
  match cb with CbRefreshAll => spawn (refreshAll net) end.

(** The socket delivers events only while it exists and is not closed;
    a timer fires only while it is active; the cleanup runs once. *)
Definition handle (e : event) : M unit := λ c,
  match e with
  | WsOpen =>
      match ws c with
      | Some CONNECTING => set_ws (Some OPEN) c
      | _ => (Ok tt, c)
      end
  | WsMessage net =>
      match ws c with
      | Some OPEN | Some CLOSING => spawn (refreshAll net) c
      | _ => (Ok tt, c)
      end
  | WsError =>
      match ws c with
      | Some CONNECTING | Some OPEN | Some CLOSING => startPolling c
      | _ => (Ok tt, c)
      end
  | WsClose =>
      match ws c with
      | Some CONNECTING | Some OPEN | Some CLOSING =>
          (set_ws (Some CLOSED);; startPolling) c
      | _ => (Ok tt, c)
      end
  | Tick id net =>
      match list_find (λ t, timer_id t = id) (timers c) with
      | Some (_, t) => run_callback (timer_callback t) net c
      | None => (Ok tt, c)
      end
  | Unmount =>
      if mounted c then (cleanup;; set_mounted false) c else (Ok tt, c)
  end.

Definition step (c : component) (e : event) : component := (handle e c).2.

Definition run (trace : list event) (c : component) : component :=
  fold_left step trace c.

(** The state cells as [useState] initialises them. *)
Definition initial_view : view_state :=
  ViewState JNull (JArr []) (JArr [])
    (JObj [("count", JNum 0); ("items", JArr [])])
    None
    (JObj [("step", JNum 0); ("customer", JStr ""); ("age", JStr "unknown");
           ("gender", JStr "unknown"); ("zipcodeori", JStr "");
           ("merchant", JStr ""); ("zipmerchant", JStr "");
           ("category", JStr ""); ("amount", JNum 0); ("fraud", JNum 0)])
    (JArr []) (JArr []) (JArr []) (JArr []) (JArr []).

(** The first render followed by the effect. *)
Definition mount (ws_ok : bool) (net : network) : component :=
  (effect ws_ok net
     (Component initial_view None None true [] [] O O)).2.

(** ** Vocabulary of the properties *)

(** The nine datasets of a view state, in the order of the refresh. *)
Definition datasets (v : view_state) : list json :=
  [ summary v; categorySpend v; fraudTrend v; table v; amountByGender v;
    fraudByCategory v; avgAmountByCategory v; topMerchants v;
    amountHistogram v ].

(** The component after a refresh that sent its requests and stopped at
    the await. *)
Definition requests_sent (c : component) : component :=
  Component (view c) (pollRef c) (ws c) (mounted c)
    (sent c ++ refresh_requests) (timers c) (intervals_set c)
    (sockets_opened c).

(** The view after the nine setters. *)
Definition refreshed (values : list json) (v : view_state) : view_state :=
  ViewState (item 0 values) (item 1 values) (item 2 values) (item 3 values)
    (file v) (newTx v) (item 4 values) (item 5 values) (item 6 values)
    (item 7 values) (item 8 values).

(** A network on which one endpoint fails and the others answer. *)
Definition failing (path : string) : network :=
  λ r, if String.eqb (url r) path then Throw "Network Error" else Ok JNull.

(** A freshly rendered view, before its effect ran. *)
Definition rendered : component :=
  Component initial_view None None true [] [] O O.

(** The timer that [startPolling] arms. *)
Definition poll_timer (id : positive) : timer := Timer id CbRefreshAll 5000.

(** What holds of the polling machinery at every moment of a mount:
    before the first arming there is no timer; after it [pollRef] holds
    the id of the one timer ever set, which is active or was cleared. *)
Definition poll_inv (c : component) : Prop :=
  match pollRef c with
  | None => timers c = [] ∧ intervals_set c = O
  | Some id =>
      id = 1%positive ∧ intervals_set c = 1%nat
      ∧ (timers c = [poll_timer 1] ∨ timers c = [])
  end.

(** The component after the cleanup: the socket is closing unless it
    was closed or never there, and the timer named by [pollRef] is
    cleared. *)
Definition cleaned (c : component) : component :=
  Component (view c) (pollRef c)
    match ws c with
    | Some CONNECTING | Some OPEN => Some CLOSING
    | w => w
    end
    (mounted c) (sent c)
    match pollRef c with
    | Some id => filter (λ t, timer_id t ≠ id) (timers c)
    | None => timers c
    end
    (intervals_set c) (sockets_opened c).

(** A view whose poll timer was armed and then cleared. *)
Definition cleared (c : component) : Prop :=
  pollRef c = Some 1%positive ∧ timers c = [].

(** A view that is polling. *)
Definition polling (c : component) : Prop :=
  pollRef c = Some 1%positive ∧ timers c = [poll_timer 1].

(** An unmounted view whose socket closed after the cleanup and armed
    the poll timer. *)
Definition leaked (c : component) : Prop :=
  mounted c = false ∧ ws c = Some CLOSED
  ∧ pollRef c = Some 1%positive ∧ timers c = [poll_timer 1].

(** ** The transaction form *)

(** The own properties of an object, in order; anything else spreads
    to nothing. *)
Definition fields (o : json) : list (string * json) :=
  match o with JObj fs => fs | _ => [] end.

(** [o.k]: [undefined] when the property is missing. *)
Fixpoint get (k : string) (fs : list (string * json)) : json :=
  match fs with
  | [] => JUndefined
  | (k', v) :: fs => if String.eqb k k' then v else get k fs
  end.

(** [{...o, k: v}]: an existing property keeps its place and takes the
    new value, a new one is added last. *)
Fixpoint put (k : string) (v : json) (fs : list (string * json))
    : list (string * json) :=
  match fs with
  | [] => [(k, v)]
  | (k', v') :: fs =>
      if String.eqb k k' then (k', v) :: fs else (k', v') :: put k v fs
  end.

Definition setNewTx (x : json) : M unit := update (λ v,
  ViewState (summary v) (categorySpend v) (fraudTrend v) (table v) (file v) x
    (amountByGender v) (fraudByCategory v) (avgAmountByCategory v)
    (topMerchants v) (amountHistogram v)).

(** The [onChange] handler of the form control of field [k]:
    [setNewTx({...newTx, k: e.target.value})]. *)
Definition onChangeTx (k value : string) : M unit :=
  v ← get_view;
  setNewTx (JObj (put k (JStr value) (fields (newTx v)))).

(** The fields that have a control in the form. *)
Definition form_controls : list string :=
  ["step"; "customer"; "gender"; "merchant"; "category"; "amount"; "fraud"].

(** The payload of [onAddTx]: the draft with [step], [amount] and
    [fraud] passed through [Number].  The conversion itself is the
    language's, and is a parameter here. *)
Definition tx_payload (Number : json → json) (draft : json) : json :=
  let newTx := fields draft in
  JObj (put "fraud" (Number (get "fraud" newTx))
         (put "amount" (Number (get "amount" newTx))
            (put "step" (Number (get "step" newTx)) newTx))).

(** [onAddTx], after [e.preventDefault()]. *)
Definition onAddTx (Number : json → json) (net : network) : M unit :=
  v ← get_view;
  p ← send net (addTransaction (tx_payload Number (newTx v)));
  await p;;
  refreshAll net.

(** The [onChange] handler of the file input:
    [setFile(e.target.files?.[0] || null)]. *)
Definition onFileChange (files : option (list File)) : M unit :=
  setFile (files ≫= head).

(** ** The socket address *)

(** [s] without its prefix [pat], when it has that prefix. *)
Fixpoint strip_prefix (pat s : string) : option string :=
  match pat, s with
  | EmptyString, _ => Some s
  | String a pat', String b s' =>
      if Ascii.eqb a b then strip_prefix pat' s' else None
  | String _ _, EmptyString => None
  end.

(** [s.replace(pat, rep)] for a string pattern and a replacement
    without [$]: the first occurrence of [pat] is replaced. *)
Fixpoint js_replace (pat rep s : string) : string :=
  match strip_prefix pat s with
  | Some rest => rep +:+ rest
  | None =>
      match s with
      | EmptyString => EmptyString
      | String c s' => String c (js_replace pat rep s')
      end
  end.

(** [API_URL.replace("http", "ws") + "/ws/changes"]. *)
Definition wsUrl (API_URL : string) : string :=
  js_replace "http" "ws" API_URL +:+ "/ws/changes".

(** ** Chart helpers *)

Definition PALETTE : list string :=
  ["#6366F1"; "#22C55E"; "#F59E0B"; "#EF4444"; "#06B6D4"; "#A855F7";
   "#84CC16"; "#E879F9"; "#3B82F6"; "#F97316"].

(** [PALETTE[i % PALETTE.length]] for an array index [i]; [None] is
    [undefined]. *)
Definition pickColorByIndex (i : nat) : option string :=
  PALETTE !! (i mod length PALETTE)%nat.

(** The fills of the pie cells, [topMerchants.map((_, i) =>
    pickColorByIndex(i))]. *)
Definition cell_fills {A} (topMerchants : list A) : list (option string) :=
  imap (λ i _, pickColorByIndex i) topMerchants.

(** One entry of the fraud trend, [{step, fraud}]. *)
Record trend_point : Type := TrendPoint { step_of : Z; fraud_of : Z }.

(** [array.filter((v, i) => keep v i)], the callback seeing the index
    in the array filtered. *)
Fixpoint filter_indexed {A} (keep : A → nat → bool) (i : nat) (l : list A)
    : list A :=
  match l with
  | [] => []
  | v :: l =>
      if keep v i then v :: filter_indexed keep (S i) l
      else filter_indexed keep (S i) l
  end.

(** The ticks of the step axis:
    [fraudTrend.map(d => d.step).filter((v, i) => i === 0 || v % 10 === 0)].
    [%] is the remainder of the truncated division. *)
Definition trend_ticks (fraudTrend : list trend_point) : list Z :=
  filter_indexed (λ v i, (i =? 0)%nat || (Z.rem v 10 =? 0))
    0 (step_of <$> fraudTrend).

(** ** Vocabulary of the further properties *)

(** The component with one more request on record. *)
Definition logged (r : request) (c : component) : component :=
  Component (view c) (pollRef c) (ws c) (mounted c) (sent c ++ [r])
    (timers c) (intervals_set c) (sockets_opened c).

(** The view with the file selection cleared. *)
Definition without_file (v : view_state) : view_state :=
  ViewState (summary v) (categorySpend v) (fraudTrend v) (table v) None
    (newTx v) (amountByGender v) (fraudByCategory v) (avgAmountByCategory v)
    (topMerchants v) (amountHistogram v).

(** [s.includes(pat)]. *)
Fixpoint occurs (pat s : string) : bool :=
  match strip_prefix pat s with
  | Some _ => true
  | None =>
      match s with
      | EmptyString => false
      | String _ s' => occurs pat s'
      end
  end.

(** Typing into the form: one [onChange] per edit, in order. *)
Fixpoint type_in (edits : list (string * string)) : M unit :=
  match edits with
  | [] => mret tt
  | (k, value) :: edits => onChangeTx k value;; type_in edits
  end.

(** The conversion on drafts whose numeric fields hold numbers:
    [Number(n)] is [n]. *)
Definition number_id (j : json) : json :=
  match j with JNum n => JNum n | _ => JUndefined end.

End Dashboard.

(** * Binary64 arithmetic *)

Module Binary64.
Import Lorenz.

(** The finite binary64 values are the multiples [k * 2^-1074] whose
    significand fits in 53 bits and that stay below [2^1024].  An
    operation of IEEE 754 returns the exact result rounded to the
    nearest such value, ties to the even significand, and an infinity
    when the rounded result reaches [2^1024].  The sign of a zero is
    not tracked: [Fin 0] stands for both zeros (no comparison tells
    them apart, and the sums of [lorenzData], which start from [+0],
    are never [-0]). *)

(** The integer nearest to [x], ties to even. *)
Definition rne (x : Q) : Z :=
  let f := Qfloor x in
  match (x - inject_Z f ?= 1 # 2)%Q with
  | Lt => f
  | Gt => (f + 1)%Z
  | Eq => if Z.even f then f else (f + 1)%Z
  end.

(** For [x >= 0] measured in units of [2^-1074]: the number of low bits
    that a 53-bit significand cannot hold. *)
Definition shift (x : Q) : Z := Z.max (Z.log2 (Qfloor x) - 52) 0.

(** [x >= 0] rounded to a 53-bit significand, in the same units. *)
Definition round_units (x : Q) : Z :=
  (rne (x / inject_Z (2 ^ shift x)) * 2 ^ shift x)%Z.

Definition units : Q := inject_Z (2 ^ 1074).

(** [2^1024] in units. *)
Definition max_units : Z := (2 ^ 2098)%Z.

Definition of_units (k : Z) : Qc := Q2Qc (inject_Z k / units).

(** The binary64 value of the exact result [q]. *)
Definition round64 (q : Q) : number :=
  match (q ?= 0)%Q with
  | Eq => Fin 0
  | Gt =>
      let k := round_units (q * units) in
      if (max_units <=? k)%Z then PosInf else Fin (of_units k)
  | Lt =>
      let k := round_units (- q * units) in
      if (max_units <=? k)%Z then NegInf else Fin (of_units (- k))
  end.

(** The sign of a number that is not [NaN]. *)
Definition sgn (x : number) : Z :=
  match x with
  | Fin q => Z.sgn (Qnum (this q))
  | PosInf => 1
  | NegInf => (-1)
  | NaN => 0
  end.

(** The infinity of a sign; an undetermined sign gives [NaN]. *)
Definition inf_of_sign (z : Z) : number :=
  match z with
  | Z0 => NaN
  | Zpos _ => PosInf
  | Zneg _ => NegInf
  end.

Definition js_neg (x : number) : number :=
  match x with
  | Fin q => Fin (- q)
  | PosInf => NegInf
  | NegInf => PosInf
  | NaN => NaN
  end.

(** [x + y]. *)
Definition js_add (x y : number) : number :=
  match x, y with
  | Fin a, Fin b => round64 (this (a + b))
  | NaN, _ | _, NaN => NaN
  | PosInf, NegInf | NegInf, PosInf => NaN
  | PosInf, _ | _, PosInf => PosInf
  | NegInf, _ | _, NegInf => NegInf
  end.

(** [x - y]. *)
Definition js_sub (x y : number) : number := js_add x (js_neg y).

(** [x * y]. *)
Definition js_mul (x y : number) : number :=
  match x, y with
  | Fin a, Fin b => round64 (this (a * b))
  | NaN, _ | _, NaN => NaN
  | _, _ => inf_of_sign (sgn x * sgn y)
  end.

(** [x / y]. *)
Definition js_quot (x y : number) : number :=
  match x, y with
  | Fin a, Fin b =>
      if decide (b = 0) then inf_of_sign (sgn x)
      else round64 (this (a / b))
  | NaN, _ | _, NaN => NaN
  | Fin _, _ => Fin 0
  | _, Fin b => inf_of_sign (sgn x * (if decide (b < 0) then -1 else 1))
  | _, _ => NaN
  end.

(** [x || 0] on a number: [0] and [NaN] are falsy. *)
Definition or_zero (x : number) : number :=
  match x with
  | Fin q => if decide (q = 0) then Fin 0 else x
  | NaN => Fin 0
  | _ => x
  end.

(** The value that the compare function of a sort is read as: only its
    sign matters, and [NaN] counts as [0]. *)
Definition sort_key (v : number) : Qc :=
  match v with
  | Fin q => q
  | PosInf => 1
  | NegInf => - 1
  | NaN => 0
  end.

(** A number that is a binary64 value. *)
Definition is_double (x : number) : Prop :=
  match x with
  | Fin r => round64 (this r) = Fin r
  | _ => True
  end.

(** ** Conformance

    The operations above are compared with the IEEE 754 operations of
    the standard library ([SpecFloat], precision 53, maximal exponent
    1024) on operands that exercise rounding, ties, subnormal results,
    overflow, zero divisors, infinities and [NaN]. *)
Module Conformance.

(** The number that a float of the standard library denotes. *)
Definition of_spec (f : SpecFloat.spec_float) : number :=
  match f with
  | SpecFloat.S754_zero _ => Fin 0
  | SpecFloat.S754_infinity s => if s then NegInf else PosInf
  | SpecFloat.S754_nan => NaN
  | SpecFloat.S754_finite s m e =>
      Fin (Q2Qc ((if s then -1 else 1) * inject_Z (Z.pos m) * (2 # 1) ^ e))
  end.

(** The binary64 value nearest to [m * 2^e]. *)
Definition b64 (m e : Z) : SpecFloat.spec_float :=
  SpecFloat.binary_normalize 53 1024 m e false.

Definition inf : SpecFloat.spec_float := SpecFloat.S754_infinity false.
Definition tenth : SpecFloat.spec_float := b64 3602879701896397 (-55).
Definition fifth : SpecFloat.spec_float := b64 3602879701896397 (-54).

Definition cases : list (SpecFloat.spec_float * SpecFloat.spec_float) :=
  [(tenth, fifth); (tenth, b64 3 0); (b64 1 0, b64 3 0); (b64 (-1) 0, tenth);
   (b64 1 53, b64 1 0); (b64 9007199254740993 0, b64 3 0);
   (b64 1 1023, b64 2 0); (b64 1 1023, b64 1 1023);
   (b64 9007199254740991 971, b64 1 970); (b64 (-1) 1023, tenth);
   (b64 1 (-1074), b64 2 0); (b64 3 (-1074), b64 2 0);
   (b64 (-3) (-1074), b64 1 (-1074)); (b64 1 (-1022), b64 1 (-1074));
   (b64 1 (-537), b64 1 (-537)); (b64 1 (-1074), b64 1 1023);
   (b64 0 0, b64 0 0); (b64 1 0, b64 0 0); (b64 (-3) 0, b64 0 0);
   (b64 0 0, tenth); (inf, inf); (inf, SpecFloat.S754_infinity true);
   (inf, b64 0 0); (b64 0 0, inf); (inf, b64 (-3) 0); (tenth, inf);
   (SpecFloat.S754_infinity true, b64 0 0);
   (SpecFloat.S754_nan, b64 1 0); (b64 0 0, SpecFloat.S754_nan);
   (SpecFloat.S754_nan, inf)].

(** The four operations agree on a pair of operands. *)
Definition conforms (xy : SpecFloat.spec_float * SpecFloat.spec_float) : Prop :=
  let x := xy.1 in
  let y := xy.2 in
  js_add (of_spec x) (of_spec y) = of_spec (SpecFloat.SFadd 53 1024 x y)
  ∧ js_sub (of_spec x) (of_spec y) = of_spec (SpecFloat.SFsub 53 1024 x y)
  ∧ js_mul (of_spec x) (of_spec y) = of_spec (SpecFloat.SFmul 53 1024 x y)
  ∧ js_quot (of_spec x) (of_spec y) = of_spec (SpecFloat.SFdiv 53 1024 x y).

#[global] Instance conforms_dec xy : Decision (conforms xy).
Proof. unfold conforms. apply _. Defined.

End Conformance.

End Binary64.

(** * The Lorenz derivation in binary64

    The same memo as [Lorenz.lorenzData], with every number the
    binary64 value that the code computes: the fields of the buckets
    are the numbers of the JSON body, read as the nearest binary64
    value, and every sum, product and quotient is rounded. *)

Module Lorenz64.
Import Lorenz Binary64.

(** A number of the JSON body as [JSON.parse] reads it. *)
Definition parse (q : Qc) : number := round64 (this q).

(** [d.mid]. *)
Definition mid_of (d : bucket) : number := parse (mid d).

(** [d.count || 0]. *)
Definition count_or_0 (d : bucket) : number :=
  match count d with
  | Some c => or_zero (parse c)
  | None => Fin 0
  end.

(** [(a, b) => a.mid - b.mid]. *)
Definition by_mid (a b : bucket) : number := js_sub (mid_of a) (mid_of b).

(** [[...amountHistogram].sort((a, b) => a.mid - b.mid)]. *)
Definition sorted_of (amountHistogram : list bucket) : list bucket :=
  js_sort (λ a b, sort_key (by_mid a b)) amountHistogram.

(** [sorted.reduce((s, d) => s + (d.count || 0), 0)]. *)
Definition totalCount (sorted : list bucket) : number :=
  fold_left (λ s d, js_add s (count_or_0 d)) sorted (Fin 0).

(** [sorted.reduce((s, d) => s + (d.mid * (d.count || 0)), 0)]. *)
Definition totalAmount (sorted : list bucket) : number :=
  fold_left (λ s d, js_add s (js_mul (mid_of d) (count_or_0 d))) sorted (Fin 0).

(** The [sorted.map] callback with its two running sums. *)
Fixpoint walk (totalCount totalAmount cumCount cumAmount : number)
    (sorted : list bucket) : list point :=
  match sorted with
  | [] => []
  | d :: rest =>
      let c := count_or_0 d in
      let cumCount := js_add cumCount c in
      let cumAmount := js_add cumAmount (js_mul (mid_of d) c) in
      Point (js_quot cumCount totalCount) (js_quot cumAmount totalAmount)
        :: walk totalCount totalAmount cumCount cumAmount rest
  end.

(** The memo body. *)
Definition lorenzData (amountHistogram : list bucket) : list point :=
  match amountHistogram with
  | [] => []
  | _ :: _ =>
      let sorted := sorted_of amountHistogram in
      let totalCount := totalCount sorted in
      let totalAmount := totalAmount sorted in
      let pts := walk totalCount totalAmount (Fin 0) (Fin 0) sorted in
      Point (Fin 0) (Fin 0) :: pts ++ [Point (Fin 1) (Fin 1)]
  end.

(** ** Vocabulary of the properties *)

(** A total that is positive and finite. *)
Definition positive_finite (x : number) : Prop :=
  match x with Fin q => 0 < q | _ => False end.

(** A total that is nonzero and finite. *)
Definition nonzero_finite (x : number) : Prop :=
  match x with Fin q => q ≠ 0 | _ => False end.

(** A bucket whose midpoint and count, as sent, are not negative. *)
Definition nonneg_bucket (d : bucket) : Prop :=
  0 ≤ mid d ∧ match count d with Some c => 0 ≤ c | None => True end.

(** A bucket [{mid: m * 2^e, count: c}]. *)
Definition bkt2 (m : Z) (e : N) (c : Z) : bucket :=
  Bucket (Q2Qc (inject_Z m * inject_Z (2 ^ Z.of_N e))) (Some (Qc_of_Z c)).

End Lorenz64.

(** * Facts about the Lorenz derivation *)

Import Lorenz.

(** Closed equations between curves are decided by evaluation. *)
Ltac by_evaluation := apply (bool_decide_unpack _); vm_compute; exact I.

(** ** Sums *)
Section sums.
Context {A : Type} (f : A → Qc).


End sums.

(** ** The sort *)
Section sort_facts.
Context {A : Type} (comparefn : A → A → Qc).

Lemma insert_perm (x : A) (l : list A) : insert comparefn x l ≡ₚ x :: l.
Proof.
  induction l as [|y l IH]; simpl; [done|].
  case_decide; [|done]. rewrite IH. apply Permutation_swap.
Qed.

Lemma js_sort_perm (l : list A) : js_sort comparefn l ≡ₚ l.
Proof.
  induction l as [|x l IH]; simpl; [done|].
  unfold js_sort in *. simpl. by rewrite insert_perm, IH.
Qed.

Lemma js_sort_length (l : list A) : length (js_sort comparefn l) = length l.
Proof. apply Permutation_length, js_sort_perm. Qed.

Lemma js_sort_nil_inv (l : list A) : js_sort comparefn l = [] → l = [].
Proof.
  intros H. apply length_zero_iff_nil.
  by rewrite <-js_sort_length, H.
Qed.
End sort_facts.

#[local] Instance mid_le_trans : Transitive mid_le.
Proof. intros a b c. unfold mid_le. apply Qcle_trans. Qed.




(** ** Division *)

Lemma Qcdiv_le_mono (a b t : Qc) : 0 < t → a ≤ b → a / t ≤ b / t.
Proof.
  intros Ht Hab. unfold Qcdiv.
  apply Qcmult_le_mono_nonneg_r; [|done].
  by apply Qclt_le_weak, Qcinv_pos.
Qed.

Lemma Qc_pos_nonzero (t : Qc) : 0 < t → t ≠ 0.
Proof. intros Ht ->. by apply (irreflexivity Qclt 0). Qed.

(** ** The cumulative walk *)
Section walk_facts.
Context (tc ta : Qc).

Lemma walk_length (l : list bucket) (cc ca : Qc) :
  length (walk tc ta cc ca l) = length l.
Proof.
  revert cc ca. induction l as [|d l IH]; intros cc ca; simpl; [done|].
  by rewrite IH.
Qed.


End walk_facts.

(** A non-empty histogram is sorted, walked and framed by the anchors. *)
Lemma lorenzData_nonempty (h : list bucket) :
  h ≠ [] →
  lorenzData h
  = Point (Fin 0) (Fin 0)
    :: walk (totalCount (js_sort by_mid h)) (totalAmount (js_sort by_mid h))
         0 0 (js_sort by_mid h)
    ++ [Point (Fin 1) (Fin 1)].
Proof. by destruct h. Qed.


(** ** The two-bucket scenario *)

(** C1, as stated, fails: for the histogram
    [[{mid:10,count:2},{mid:30,count:2}]] the first computed point is
    not (0.5, 0.125). *)
Lemma scenario_point_not_one_eighth :
  lorenzData [bkt 10 2; bkt 30 2] !! 1%nat
  ≠ Some (pt (frac 1 2) (frac 1 8)).
Proof. by_evaluation. Qed.

(** C1, amended: for the histogram [[{mid:10,count:2},{mid:30,count:2}]]
    the derivation computes total count 4 and total amount 80, and the
    points between the (0,0) and (1,1) anchors are (0.5, 0.25), the
    first bucket holding 20 of the 80, followed by (1, 1). *)
Theorem scenario_curve :
  let sorted := js_sort by_mid [bkt 10 2; bkt 30 2] in
  totalCount sorted = Qc_of_Z 4
  ∧ totalAmount sorted = Qc_of_Z 80
  ∧ lorenzData [bkt 10 2; bkt 30 2]
    = [pt (frac 0 1) (frac 0 1);
       pt (frac 1 2) (frac 1 4); pt (frac 1 1) (frac 1 1);
       pt (frac 1 1) (frac 1 1)].
Proof. repeat split; by_evaluation. Qed.

(** ** Degenerate inputs *)

(** C5: for the empty histogram the derivation returns the empty
    sequence; neither anchor is added. *)
Theorem lorenzData_empty : lorenzData [] = [].
Proof. reflexivity. Qed.

(** ** Buckets without a count *)





(** ** Monotonicity *)

Lemma num_le_trans (x y z : number) : num_le x y → num_le y z → num_le x z.
Proof.
  destruct x, y, z; simpl; try done. apply Qcle_trans.
Qed.

#[local] Instance point_le_trans : Transitive point_le.
Proof.
  intros a b c [??] [??]. split; by eapply num_le_trans.
Qed.

(** C2, as stated, fails: the histogram
    [[{mid:-10,count:1},{mid:30,count:1}]] is non-empty and has total
    count 2 and total amount 20, both positive, yet its curve
    (0,0), (0.5,-0.5), (1,1), (1,1) falls from 0 to -0.5 in its second
    coordinate. *)
Lemma negative_midpoint_not_monotone :
  let h := [bkt (-10) 1; bkt 30 1] in
  h ≠ [] ∧ 0 < totalCount h ∧ 0 < totalAmount h
  ∧ lorenzData h
    = [pt (frac 0 1) (frac 0 1); pt (frac 1 2) (frac (-1) 2);
       pt (frac 1 1) (frac 1 1); pt (frac 1 1) (frac 1 1)]
  ∧ ¬ non_decreasing (lorenzData h).
Proof.
  assert (E : lorenzData [bkt (-10) 1; bkt 30 1]
    = [pt (frac 0 1) (frac 0 1); pt (frac 1 2) (frac (-1) 2);
       pt (frac 1 1) (frac 1 1); pt (frac 1 1) (frac 1 1)])
    by by_evaluation.
  cbv zeta. split; [done|]. split; [by_evaluation|]. split; [by_evaluation|].
  split; [done|]. rewrite E. intros Hs.
  apply StronglySorted_cons in Hs as [Hall _].
  apply Forall_cons in Hall as [[_ HL] _]. simpl in HL.
  revert HL. by_evaluation.
Qed.

(** ** Permutations of the input *)









(** * Facts about binary64 arithmetic *)

Import Binary64.

(** ** Rounding to a 53-bit significand *)

Section rounding.
Local Open Scope Q_scope.

#[local] Instance rne_proper : Proper (Qeq ==> eq) rne.
Proof.
  intros x y E. unfold rne. rewrite (Qfloor_comp _ _ E).
  assert (E' : x - inject_Z (Qfloor y) == y - inject_Z (Qfloor y))
    by (by rewrite E).
  by rewrite (Qcompare_comp _ _ E' _ _ (Qeq_refl _)).
Qed.

Lemma Qfloor_bounds (x : Q) :
  inject_Z (Qfloor x) <= x ∧ x < inject_Z (Qfloor x) + 1.
Proof.
  split; [apply Qfloor_le|].
  pose proof (Qlt_floor x) as H. by rewrite inject_Z_plus in H.
Qed.

Lemma rne_Z (n : Z) : rne (inject_Z n) = n.
Proof.
  unfold rne. rewrite Qfloor_Z.
  destruct (Qcompare_spec (inject_Z n - inject_Z n) (1 # 2)) as [H|H|H];
    [exfalso; lra|done|exfalso; lra].
Qed.

Lemma rne_mono (x y : Q) : x <= y → (rne x <= rne y)%Z.
Proof.
  intros Hxy. unfold rne.
  pose proof (Qfloor_resp_le _ _ Hxy) as Hf.
  destruct (Qfloor_bounds x) as [Hx1 Hx2], (Qfloor_bounds y) as [Hy1 Hy2].
  destruct (Z.eq_dec (Qfloor x) (Qfloor y)) as [E|E].
  - rewrite <-E in *. clear E Hf.
    destruct (Qcompare_spec (x - inject_Z (Qfloor x)) (1 # 2)) as [Hx|Hx|Hx],
             (Qcompare_spec (y - inject_Z (Qfloor x)) (1 # 2)) as [Hy|Hy|Hy];
      try destruct (Z.even (Qfloor x)); try lia; exfalso; lra.
  - assert (Hlt : (Qfloor x + 1 <= Qfloor y)%Z) by lia.
    destruct (x - inject_Z (Qfloor x) ?= 1 # 2),
             (y - inject_Z (Qfloor y) ?= 1 # 2);
      try destruct (Z.even (Qfloor x)); try destruct (Z.even (Qfloor y)); lia.
Qed.

Lemma rne_le (x : Q) (n : Z) : x <= inject_Z n → (rne x <= n)%Z.
Proof. intros H. rewrite <-(rne_Z n). by apply rne_mono. Qed.

Lemma rne_ge (x : Q) (n : Z) : inject_Z n <= x → (n <= rne x)%Z.
Proof. intros H. rewrite <-(rne_Z n). by apply rne_mono. Qed.

Lemma Qfloor_nonneg (x : Q) : 0 <= x → (0 <= Qfloor x)%Z.
Proof. intros H. apply Qfloor_resp_le in H. exact H. Qed.

Lemma pow2_pos (s : Z) : (0 <= s)%Z → 0 < inject_Z (2 ^ s).
Proof.
  intros Hs. change 0 with (inject_Z 0). rewrite <-Zlt_Qlt.
  by apply Z.pow_pos_nonneg.
Qed.

Lemma shift_nonneg (x : Q) : (0 <= shift x)%Z.
Proof. unfold shift. lia. Qed.

Lemma shift_mono (x y : Q) : x <= y → (shift x <= shift y)%Z.
Proof.
  intros H. unfold shift.
  pose proof (Z.log2_le_mono _ _ (Qfloor_resp_le _ _ H)). lia.
Qed.

(** A value lies below the top of the binade that [shift] picks. *)
Lemma shift_upper (x : Q) : 0 <= x → x < inject_Z (2 ^ (shift x + 53)).
Proof.
  intros Hx. destruct (Qfloor_bounds x) as [_ H2].
  pose proof (Qfloor_nonneg x Hx) as Hf.
  assert (Hz : (Qfloor x + 1 <= 2 ^ (shift x + 53))%Z).
  { destruct (Z.eq_dec (Qfloor x) 0%Z) as [->|Hne].
    - pose proof (shift_nonneg x).
      assert (2 ^ 0 <= 2 ^ (shift x + 53))%Z
        by (apply Z.pow_le_mono_r; lia).
      change (2 ^ 0)%Z with 1%Z in *. lia.
    - assert (Hpos : (0 < Qfloor x)%Z) by lia.
      destruct (Z.log2_spec _ Hpos) as [_ Hlt].
      assert (2 ^ Z.succ (Z.log2 (Qfloor x)) <= 2 ^ (shift x + 53))%Z
        by (apply Z.pow_le_mono_r; unfold shift; lia).
      lia. }
  rewrite Zle_Qle in Hz. rewrite inject_Z_plus in Hz.
  change (inject_Z 1) with 1 in Hz. lra.
Qed.

Lemma shift_lower (x : Q) :
  (0 < shift x)%Z → inject_Z (2 ^ (shift x + 52)) <= x.
Proof.
  intros Hs. destruct (Qfloor_bounds x) as [H1 _].
  assert (Hl : Z.log2 (Qfloor x) = (shift x + 52)%Z)
    by (unfold shift in *; lia).
  assert (Hpos : (0 < Qfloor x)%Z).
  { destruct (Z.le_gt_cases (Qfloor x) 0%Z) as [Hle|]; [|done].
    rewrite (Z.log2_nonpos _ Hle) in Hl. lia. }
  destruct (Z.log2_spec _ Hpos) as [Hge _]. rewrite Hl in Hge.
  rewrite Zle_Qle in Hge. lra.
Qed.

Lemma pow2_split (s n : Z) :
  (0 <= s)%Z → (0 <= n)%Z →
  inject_Z (2 ^ (s + n)) == inject_Z (2 ^ n) * inject_Z (2 ^ s).
Proof.
  intros Hs Hn. rewrite <-inject_Z_mult, Z.pow_add_r by lia.
  by rewrite Z.mul_comm.
Qed.

(** The rounded significand has at most 53 bits, and exactly 53 once
    low bits are dropped. *)
Lemma significand_upper (x : Q) :
  0 <= x → (rne (x / inject_Z (2 ^ shift x)) <= 2 ^ 53)%Z.
Proof.
  intros Hx. apply rne_le.
  pose proof (shift_upper x Hx) as H. pose proof (shift_nonneg x) as Hs.
  rewrite pow2_split in H by lia.
  apply Qle_shift_div_r; [by apply pow2_pos|]. lra.
Qed.

Lemma significand_lower (x : Q) :
  (0 < shift x)%Z → (2 ^ 52 <= rne (x / inject_Z (2 ^ shift x)))%Z.
Proof.
  intros Hs. apply rne_ge.
  pose proof (shift_lower x Hs) as H.
  rewrite pow2_split in H by lia.
  apply Qle_shift_div_l; [apply pow2_pos; lia|]. lra.
Qed.

Lemma significand_nonneg (x : Q) :
  0 <= x → (0 <= rne (x / inject_Z (2 ^ shift x)))%Z.
Proof.
  intros Hx. apply rne_ge. pose proof (shift_nonneg x).
  apply Qle_shift_div_l; [by apply pow2_pos|].
  change (inject_Z 0) with 0. lra.
Qed.

Lemma round_units_nonneg (x : Q) : 0 <= x → (0 <= round_units x)%Z.
Proof.
  intros Hx. unfold round_units.
  pose proof (significand_nonneg x Hx). pose proof (shift_nonneg x).
  assert (0 < 2 ^ shift x)%Z by (by apply Z.pow_pos_nonneg). nia.
Qed.

Lemma round_units_mono (x y : Q) :
  0 <= x → x <= y → (round_units x <= round_units y)%Z.
Proof.
  intros Hx Hxy. unfold round_units.
  pose proof (shift_mono x y Hxy) as Hs.
  pose proof (shift_nonneg x) as Hsx.
  destruct (Z.eq_dec (shift x) (shift y)) as [E|E].
  - rewrite <-E. apply Z.mul_le_mono_nonneg_r; [by apply Z.pow_nonneg|].
    apply rne_mono. unfold Qdiv. apply Qmult_le_compat_r; [done|].
    by apply Qlt_le_weak, Qinv_lt_0_compat, pow2_pos.
  - assert (Hlt : (shift x + 1 <= shift y)%Z) by lia.
    pose proof (significand_upper x Hx) as Hu.
    assert (Hy : (0 < shift y)%Z) by lia.
    pose proof (significand_lower y Hy) as Hl.
    trans (2 ^ 53 * 2 ^ shift x)%Z.
    { apply Z.mul_le_mono_nonneg_r; [by apply Z.pow_nonneg|done]. }
    trans (2 ^ 52 * 2 ^ shift y)%Z.
    { rewrite <-!Z.pow_add_r by lia. apply Z.pow_le_mono_r; lia. }
    apply Z.mul_le_mono_nonneg_r; [by apply Z.pow_nonneg|done].
Qed.

#[local] Instance round_units_proper : Proper (Qeq ==> eq) round_units.
Proof.
  intros x y E. unfold round_units, shift. rewrite (Qfloor_comp _ _ E).
  f_equal. apply rne_proper. by rewrite E.
Qed.

(** A rounded value is a binary64 value: rounding it again gives it back. *)
Lemma round_units_fix (x : Q) :
  0 <= x → round_units (inject_Z (round_units x)) = round_units x.
Proof.
  intros Hx.
  pose proof (significand_upper x Hx) as Hu.
  pose proof (significand_nonneg x Hx) as Hn.
  pose proof (shift_nonneg x) as Hs.
  assert (Hl : (0 < shift x)%Z → (2 ^ 52 <= rne (x / inject_Z (2 ^ shift x)))%Z)
    by apply significand_lower.
  unfold round_units at 2 3.
  set (n := rne (x / inject_Z (2 ^ shift x))) in *.
  set (s := shift x) in *. clearbody n s. clear x Hx.
  assert (Hshift : ∀ k s', (0 <= s')%Z → (s' = 0 ∨ 2 ^ (s' + 52) <= k)%Z →
             (k < 2 ^ (s' + 53))%Z → (0 <= k)%Z → shift (inject_Z k) = s').
  { intros k s' Hs' Hlow Hup Hk. unfold shift. rewrite Qfloor_Z.
    destruct Hlow as [->|Hlow].
    - destruct (Z.eq_dec k 0%Z) as [->|Hk0]; [done|].
      assert (Z.log2 k < 53)%Z by (apply Z.log2_lt_pow2; lia). lia.
    - assert (Z.log2 k = s' + 52)%Z; [|lia].
      apply Z.log2_unique; [lia|].
      replace (Z.succ (s' + 52)) with (s' + 53)%Z by lia. lia. }
  assert (Hround : ∀ m s', (0 <= s')%Z → shift (inject_Z (m * 2 ^ s')) = s' →
             round_units (inject_Z (m * 2 ^ s')) = (m * 2 ^ s')%Z).
  { intros m s' Hs' E. unfold round_units. rewrite E. f_equal.
    rewrite <-(rne_Z m) at 2. apply rne_proper.
    assert (Hp := pow2_pos s' Hs'). rewrite inject_Z_mult. field. lra. }
  destruct (Z.eq_dec n (2 ^ 53)%Z) as [->|Hne].
  - replace (2 ^ 53 * 2 ^ s)%Z with (2 ^ 52 * 2 ^ (s + 1))%Z
      by (rewrite <-!Z.pow_add_r by lia; f_equal; lia).
    apply Hround; [lia|]. apply Hshift; [lia| | |].
    + right. rewrite <-!Z.pow_add_r by lia. apply Z.pow_le_mono_r; lia.
    + rewrite <-!Z.pow_add_r by lia. apply Z.pow_lt_mono_r; lia.
    + apply Z.mul_nonneg_nonneg; by apply Z.pow_nonneg.
  - assert (HP : (0 < 2 ^ s)%Z) by (by apply Z.pow_pos_nonneg).
    assert (n < 2 ^ 53)%Z by lia.
    apply Hround; [done|]. apply Hshift; [done| | |].
    + destruct (Z.eq_dec s 0%Z) as [->|Hs0]; [by left|right].
      assert (2 ^ 52 <= n)%Z by (apply Hl; lia).
      rewrite Z.pow_add_r by lia. nia.
    + rewrite Z.pow_add_r by lia. nia.
    + nia.
Qed.
End rounding.

(** ** Rounding to a binary64 value *)

Section round64_facts.
Local Open Scope Q_scope.

Lemma units_pos : 0 < units.
Proof. unfold units. apply pow2_pos. lia. Qed.

Lemma scaled_nonneg (q : Q) : 0 <= q → 0 <= q * units.
Proof. intros H. apply Qmult_le_0_compat; [done|]. apply Qlt_le_weak, units_pos. Qed.

Lemma scaled_le (q q' : Q) : q <= q' → q * units <= q' * units.
Proof. intros H. apply Qmult_le_compat_r; [done|]. apply Qlt_le_weak, units_pos. Qed.

Lemma round64_proper (x y : Q) : x == y → round64 x = round64 y.
Proof.
  intros E. unfold round64.
  rewrite (Qcompare_comp _ _ E _ _ (Qeq_refl 0)).
  assert (E1 : x * units == y * units) by (by rewrite E).
  assert (E2 : - x * units == - y * units) by (by rewrite E).
  by rewrite (round_units_proper _ _ E1), (round_units_proper _ _ E2).
Qed.

Lemma round64_zero (q : Q) : q == 0 → round64 q = Fin 0.
Proof. intros E. by rewrite (round64_proper _ _ E). Qed.

Lemma round64_pos (q : Q) :
  0 < q →
  round64 q
  = if (max_units <=? round_units (q * units))%Z then PosInf
    else Fin (of_units (round_units (q * units))).
Proof.
  intros H. unfold round64.
  destruct (Qcompare_spec q 0) as [E|E|E]; [exfalso; lra|exfalso; lra|done].
Qed.

Lemma round64_neg (q : Q) :
  q < 0 →
  round64 q
  = if (max_units <=? round_units (- q * units))%Z then NegInf
    else Fin (of_units (- round_units (- q * units))).
Proof.
  intros H. unfold round64.
  destruct (Qcompare_spec q 0) as [E|E|E]; [exfalso; lra|done|exfalso; lra].
Qed.

Lemma round64_not_NaN (q : Q) : round64 q ≠ NaN.
Proof.
  unfold round64. destruct (q ?= 0); [done|..];
    by destruct (_ <=? _)%Z.
Qed.

Lemma this_of_units (k : Z) : this (of_units k) == inject_Z k / units.
Proof. unfold of_units. simpl. apply Qred_correct. Qed.

Lemma of_units_le (k k' : Z) : (k <= k')%Z → (of_units k <= of_units k')%Qc.
Proof.
  intros H. unfold Qcle. rewrite !this_of_units. unfold Qdiv.
  apply Qmult_le_compat_r; [by rewrite <-Zle_Qle|].
  apply Qlt_le_weak, Qinv_lt_0_compat, units_pos.
Qed.

Lemma of_units_0 : of_units 0 = 0%Qc.
Proof.
  apply Qc_is_canon. rewrite this_of_units. unfold Qdiv. apply Qmult_0_l.
Qed.

(** Rounding keeps the order. *)
Lemma round64_mono (q q' : Q) : q <= q' → num_le (round64 q) (round64 q').
Proof.
  intros Hle.
  destruct (Qcompare_spec q 0) as [Hq|Hq|Hq],
           (Qcompare_spec q' 0) as [Hq'|Hq'|Hq']; try (exfalso; lra).
  - rewrite !round64_zero by done. simpl. apply Qcle_refl.
  - rewrite round64_zero, round64_pos by done.
    destruct (_ <=? _)%Z; simpl; [done|].
    rewrite <-of_units_0. apply of_units_le, round_units_nonneg, scaled_nonneg.
    lra.
  - rewrite round64_neg, round64_zero by done.
    destruct (_ <=? _)%Z; simpl; [done|].
    rewrite <-of_units_0. apply of_units_le.
    assert (0 <= round_units (- q * units))%Z; [|lia].
    apply round_units_nonneg, scaled_nonneg. lra.
  - rewrite !round64_neg by done.
    assert (Hk : (round_units (- q' * units) <= round_units (- q * units))%Z).
    { apply round_units_mono; [apply scaled_nonneg; lra|apply scaled_le; lra]. }
    destruct (Z.leb_spec max_units (round_units (- q * units))),
             (Z.leb_spec max_units (round_units (- q' * units)));
      simpl; try done; [lia|]. apply of_units_le. lia.
  - rewrite round64_neg, round64_pos by done.
    assert (0 <= round_units (- q * units))%Z
      by (apply round_units_nonneg, scaled_nonneg; lra).
    assert (0 <= round_units (q' * units))%Z
      by (apply round_units_nonneg, scaled_nonneg; lra).
    do 2 destruct (_ <=? _)%Z; simpl; try done. apply of_units_le. lia.
  - rewrite !round64_pos by done.
    assert (Hk : (round_units (q * units) <= round_units (q' * units))%Z).
    { apply round_units_mono; [apply scaled_nonneg; lra|by apply scaled_le]. }
    destruct (Z.leb_spec max_units (round_units (q * units))),
             (Z.leb_spec max_units (round_units (q' * units)));
      simpl; try done; [lia|]. by apply of_units_le.
Qed.

Lemma round64_nonneg (q : Q) : 0 <= q → num_le (Fin 0) (round64 q).
Proof. intros H. apply (round64_mono 0 q H). Qed.

Lemma round64_of_units (k : Z) :
  (0 <= k < max_units)%Z → round_units (inject_Z k) = k →
  round64 (this (of_units k)) = Fin (of_units k)
  ∧ round64 (this (of_units (- k))) = Fin (of_units (- k)).
Proof.
  intros [Hk Hmax] Hfix.
  destruct (Z.eq_dec k 0%Z) as [->|Hne].
  { change (- 0)%Z with 0%Z. rewrite of_units_0. by split. }
  assert (Hu := units_pos).
  assert (Hkq : 0 < inject_Z k).
  { change 0 with (inject_Z 0). rewrite <-Zlt_Qlt. lia. }
  split.
  - assert (E : this (of_units k) * units == inject_Z k).
    { rewrite this_of_units. generalize dependent units. intros. field. lra. }
    assert (Hpos : 0 < this (of_units k)).
    { rewrite this_of_units. apply Qlt_shift_div_l; [done|]. lra. }
    rewrite round64_pos by done.
    rewrite (round_units_proper _ _ E), Hfix.
    by destruct (Z.leb_spec max_units k); [lia|].
  - assert (E : - this (of_units (- k)) * units == inject_Z k).
    { rewrite this_of_units, inject_Z_opp.
      generalize dependent units. intros. field. lra. }
    assert (Hneg : this (of_units (- k)) < 0).
    { rewrite this_of_units, inject_Z_opp.
      apply Qlt_shift_div_r; [done|]. lra. }
    rewrite round64_neg by done.
    rewrite (round_units_proper _ _ E), Hfix.
    by destruct (Z.leb_spec max_units k); [lia|].
Qed.

(** A rounded result is a binary64 value: rounding it again changes
    nothing. *)
Lemma round64_fix (q : Q) (r : Qc) :
  round64 q = Fin r → round64 (this r) = Fin r.
Proof.
  destruct (Qcompare_spec q 0) as [Hq|Hq|Hq].
  - rewrite round64_zero by done. by intros [= <-].
  - rewrite round64_neg by done.
    assert (Hx : 0 <= - q * units) by (apply scaled_nonneg; lra).
    destruct (Z.leb_spec max_units (round_units (- q * units))); [done|].
    intros [= <-]. apply round64_of_units.
    + split; [by apply round_units_nonneg|done].
    + by apply round_units_fix.
  - rewrite round64_pos by done.
    assert (Hx : 0 <= q * units) by (apply scaled_nonneg; lra).
    destruct (Z.leb_spec max_units (round_units (q * units))); [done|].
    intros [= <-]. apply round64_of_units.
    + split; [by apply round_units_nonneg|done].
    + by apply round_units_fix.
Qed.
End round64_facts.

(** ** The operations *)

Lemma is_double_round64 (q : Q) : is_double (round64 q).
Proof.
  destruct (round64 q) as [r| | |] eqn:E; simpl; [|done..].
  by eapply round64_fix.
Qed.

Lemma is_double_js_add (x y : number) : is_double (js_add x y).
Proof. destruct x, y; simpl; try done. apply is_double_round64. Qed.

Lemma js_add_Fin_inv (x y : number) (r : Qc) :
  js_add x y = Fin r → ∃ a b, x = Fin a ∧ y = Fin b.
Proof. destruct x, y; simpl; try done. eauto. Qed.

Lemma js_mul_Fin_inv (x y : number) (r : Qc) :
  js_mul x y = Fin r → ∃ a b, x = Fin a ∧ y = Fin b.
Proof.
  destruct x as [a| | |], y as [b| | |]; simpl; try done; eauto;
    by destruct (Z.sgn _).
Qed.

(** Adding a term that is not negative does not lower a sum. *)
Lemma js_add_ge (a r : Qc) (y : number) :
  is_double (Fin a) → num_le (Fin 0) y → js_add (Fin a) y = Fin r → a ≤ r.
Proof.
  intros Ha Hy E. destruct y as [b| | |]; try done.
  unfold js_add in E. unfold is_double in Ha.
  assert (H : num_le (round64 (this a)) (round64 (this (a + b)))).
  { apply round64_mono. change (a ≤ a + b).
    rewrite <-(Qcplus_0_r a) at 1. by apply Qcplus_le_mono_l. }
  by rewrite Ha, E in H.
Qed.

Lemma js_mul_nonneg (x y : number) (t : Qc) :
  num_le (Fin 0) x → num_le (Fin 0) y → js_mul x y = Fin t → 0 ≤ t.
Proof.
  intros Hx Hy E. destruct (js_mul_Fin_inv _ _ _ E) as (a & b & -> & ->).
  unfold js_mul in E. simpl in Hx, Hy.
  assert (H : num_le (Fin 0) (round64 (this (a * b)))).
  { apply round64_nonneg. change (0 ≤ a * b).
    by apply Qcmult_nonneg_nonneg. }
  by rewrite E in H.
Qed.

Lemma js_quot_nonzero (a t : Qc) :
  t ≠ 0 → js_quot (Fin a) (Fin t) = round64 (this (a / t)).
Proof. intros Ht. simpl. by rewrite decide_False. Qed.

Lemma js_quot_same (t : Qc) : t ≠ 0 → js_quot (Fin t) (Fin t) = Fin 1.
Proof.
  intros Ht. rewrite js_quot_nonzero by done.
  unfold Qcdiv. rewrite Qcmult_inv_r by done. by_evaluation.
Qed.

Lemma js_quot_zero (t : Qc) : t ≠ 0 → js_quot (Fin 0) (Fin t) = Fin 0.
Proof.
  intros Ht. rewrite js_quot_nonzero by done.
  replace (0 / t) with 0 by (unfold Qcdiv; ring). done.
Qed.

Lemma js_quot_le (a b t : Qc) :
  0 < t → a ≤ b → num_le (js_quot (Fin a) (Fin t)) (js_quot (Fin b) (Fin t)).
Proof.
  intros Ht Hab. rewrite !js_quot_nonzero by by apply Qc_pos_nonzero.
  apply round64_mono. change (a / t ≤ b / t). by apply Qcdiv_le_mono.
Qed.

(** No quotient by zero is finite. *)
Lemma js_quot_by_zero (x : number) : is_finite (js_quot x (Fin 0)) = false.
Proof.
  destruct x as [a| | |]; try done.
  unfold js_quot. rewrite decide_True by done. simpl. by destruct (Z.sgn _).
Qed.

(** A quotient of a number by itself is 1 exactly when the number is
    finite and not zero. *)
Lemma js_quot_self (x : number) :
  js_quot x x = Fin 1 ↔ Lorenz64.nonzero_finite x.
Proof.
  destruct x as [t| | |]; simpl; try done.
  destruct (decide (t = 0)) as [->|Ht].
  - split; [|done]. by destruct (Z.sgn _).
  - split; [done|]. intros _.
    rewrite <-(js_quot_same t Ht). simpl. by rewrite decide_False.
Qed.

(** ** Conformance *)

(** On every pair of the conformance cases, the sum, the difference,
    the product and the quotient are the ones of the IEEE 754
    operations of the standard library. *)
Lemma binary64_conforms : Forall Conformance.conforms Conformance.cases.
Proof. by_evaluation. Qed.

(** * Facts about the Lorenz derivation in binary64 *)

Lemma lorenzData64_nonempty (h : list bucket) :
  h ≠ [] →
  Lorenz64.lorenzData h
  = Point (Fin 0) (Fin 0)
    :: Lorenz64.walk (Lorenz64.totalCount (Lorenz64.sorted_of h))
         (Lorenz64.totalAmount (Lorenz64.sorted_of h))
         (Fin 0) (Fin 0) (Lorenz64.sorted_of h)
    ++ [Point (Fin 1) (Fin 1)].
Proof. by destruct h. Qed.

Lemma sorted_of_perm (h : list bucket) : Lorenz64.sorted_of h ≡ₚ h.
Proof. apply js_sort_perm. Qed.

Lemma sorted_of_length (h : list bucket) :
  length (Lorenz64.sorted_of h) = length h.
Proof. apply js_sort_length. Qed.

Lemma sorted_of_nil_inv (h : list bucket) : Lorenz64.sorted_of h = [] → h = [].
Proof. apply js_sort_nil_inv. Qed.

Lemma mid_of_nonneg (d : bucket) :
  Lorenz64.nonneg_bucket d → num_le (Fin 0) (Lorenz64.mid_of d).
Proof. intros [Hm _]. by apply round64_nonneg. Qed.

Lemma count_or_0_nonneg (d : bucket) :
  Lorenz64.nonneg_bucket d → num_le (Fin 0) (Lorenz64.count_or_0 d).
Proof.
  intros [_ Hc]. unfold Lorenz64.count_or_0.
  destruct (count d) as [c|]; [|simpl; apply Qcle_refl].
  pose proof (round64_nonneg (this c) Hc) as H. unfold Lorenz64.parse.
  destruct (round64 (this c)) as [q| | |]; simpl in *; try done.
  destruct (decide (q = 0)); [apply Qcle_refl|done].
Qed.

Section walk64_facts.
Context (tc ta : number).

Lemma walk64_length (l : list bucket) (cc ca : number) :
  length (Lorenz64.walk tc ta cc ca l) = length l.
Proof.
  revert cc ca. induction l as [|d l IH]; intros cc ca; [done|].
  simpl. by rewrite IH.
Qed.

Lemma walk64_last (l : list bucket) (cc ca : number) :
  l ≠ [] →
  last (Lorenz64.walk tc ta cc ca l)
  = Some (Point
      (js_quot (fold_left (λ s d, js_add s (Lorenz64.count_or_0 d)) l cc) tc)
      (js_quot (fold_left (λ s d, js_add s
                  (js_mul (Lorenz64.mid_of d) (Lorenz64.count_or_0 d))) l ca)
               ta)).
Proof.
  revert cc ca. induction l as [|d l IH]; intros cc ca Hl; [done|].
  destruct l as [|d' l]; [done|].
  change (Lorenz64.walk tc ta cc ca (d :: d' :: l)) with
    (Point (js_quot (js_add cc (Lorenz64.count_or_0 d)) tc)
       (js_quot (js_add ca (js_mul (Lorenz64.mid_of d) (Lorenz64.count_or_0 d))) ta)
     :: Lorenz64.walk tc ta (js_add cc (Lorenz64.count_or_0 d))
          (js_add ca (js_mul (Lorenz64.mid_of d) (Lorenz64.count_or_0 d)))
          (d' :: l)).
  rewrite last_cons, IH by done. done.
Qed.

(** Every point of the walk is a pair of quotients by the totals. *)
Lemma walk64_quotients (l : list bucket) (cc ca : number) :
  Forall (λ q, ∃ x y, q = Point (js_quot x tc) (js_quot y ta))
    (Lorenz64.walk tc ta cc ca l).
Proof.
  revert cc ca. induction l as [|d l IH]; intros cc ca; simpl.
  - constructor.
  - constructor; [eauto|apply IH].
Qed.
End walk64_facts.

(** A sum that ends finite started finite: an infinity or a [NaN] never
    leaves a sum. *)
Lemma sum64_Fin_inv {A} (f : A → number) (l : list A) (s : number) (x : Qc) :
  fold_left (λ s d, js_add s (f d)) l s = Fin x → ∃ q, s = Fin q.
Proof.
  revert s. induction l as [|d l IH]; intros s E; [by exists x|].
  cbn [fold_left] in E. destruct (IH _ E) as [q Hq].
  destruct (js_add_Fin_inv _ _ _ Hq) as (a & _ & -> & _). by exists a.
Qed.

Section climb.
Context (tc ta : Qc) (Htc : 0 < tc) (Hta : 0 < ta).

Lemma share64_le (cc cc' ca ca' : Qc) :
  cc ≤ cc' → ca ≤ ca' →
  point_le (Point (js_quot (Fin cc) (Fin tc)) (js_quot (Fin ca) (Fin ta)))
           (Point (js_quot (Fin cc') (Fin tc)) (js_quot (Fin ca') (Fin ta))).
Proof. intros Hc Ha. split; simpl; by apply js_quot_le. Qed.

(** With buckets that are not negative and sums that end finite, the
    walk only climbs: its points are sorted, and they lie between the
    share of the sums it starts from and the share of the sums it ends
    with. *)
Lemma walk64_climbs (l : list bucket) (cc ca xc xa : Qc) :
  Forall Lorenz64.nonneg_bucket l →
  is_double (Fin cc) → is_double (Fin ca) →
  fold_left (λ s d, js_add s (Lorenz64.count_or_0 d)) l (Fin cc) = Fin xc →
  fold_left (λ s d, js_add s
     (js_mul (Lorenz64.mid_of d) (Lorenz64.count_or_0 d))) l (Fin ca) = Fin xa →
  StronglySorted point_le (Lorenz64.walk (Fin tc) (Fin ta) (Fin cc) (Fin ca) l)
  ∧ Forall (point_le (Point (js_quot (Fin cc) (Fin tc)) (js_quot (Fin ca) (Fin ta))))
      (Lorenz64.walk (Fin tc) (Fin ta) (Fin cc) (Fin ca) l)
  ∧ Forall (λ q, point_le q
      (Point (js_quot (Fin xc) (Fin tc)) (js_quot (Fin xa) (Fin ta))))
      (Lorenz64.walk (Fin tc) (Fin ta) (Fin cc) (Fin ca) l)
  ∧ cc ≤ xc ∧ ca ≤ xa.
Proof.
  intros Hl. revert cc ca.
  induction Hl as [|d l Hd Hl IH]; intros cc ca Hcc Hca Ec Ea.
  { simpl in *. injection Ec as <-. injection Ea as <-.
    repeat split; try constructor; apply Qcle_refl. }
  cbn [fold_left] in Ec, Ea.
  destruct (sum64_Fin_inv _ _ _ _ Ec) as [cc' Ecc'].
  destruct (sum64_Fin_inv _ _ _ _ Ea) as [ca' Eca'].
  assert (Hstep_c : cc ≤ cc').
  { eapply js_add_ge; [done| |exact Ecc']. by apply count_or_0_nonneg. }
  assert (Hstep_a : ca ≤ ca').
  { eapply js_add_ge; [done| |exact Eca'].
    destruct (js_add_Fin_inv _ _ _ Eca') as (_ & t & _ & Et).
    rewrite Et. simpl. eapply js_mul_nonneg; [| |exact Et].
    - by apply mid_of_nonneg.
    - by apply count_or_0_nonneg. }
  assert (Hcc' : is_double (Fin cc')) by (rewrite <-Ecc'; apply is_double_js_add).
  assert (Hca' : is_double (Fin ca')) by (rewrite <-Eca'; apply is_double_js_add).
  rewrite Ecc' in Ec. rewrite Eca' in Ea.
  destruct (IH cc' ca' Hcc' Hca' Ec Ea) as (Hs & Hlo & Hhi & Hxc & Hxa).
  change (Lorenz64.walk (Fin tc) (Fin ta) (Fin cc) (Fin ca) (d :: l)) with
    (Point (js_quot (js_add (Fin cc) (Lorenz64.count_or_0 d)) (Fin tc))
       (js_quot (js_add (Fin ca)
          (js_mul (Lorenz64.mid_of d) (Lorenz64.count_or_0 d))) (Fin ta))
     :: Lorenz64.walk (Fin tc) (Fin ta)
          (js_add (Fin cc) (Lorenz64.count_or_0 d))
          (js_add (Fin ca) (js_mul (Lorenz64.mid_of d) (Lorenz64.count_or_0 d)))
          l).
  rewrite Ecc', Eca'.
  assert (Hstep : point_le
            (Point (js_quot (Fin cc) (Fin tc)) (js_quot (Fin ca) (Fin ta)))
            (Point (js_quot (Fin cc') (Fin tc)) (js_quot (Fin ca') (Fin ta))))
    by by apply share64_le.
  split; [by constructor|]. split; [|split; [|split]].
  - constructor; [done|].
    eapply Forall_impl; [exact Hlo|]. intros q Hq. by etrans.
  - constructor; [|done]. by apply share64_le.
  - by etrans.
  - by etrans.
Qed.
End climb.

(** The curve of a histogram that is not negative, between its anchors. *)
Lemma walk64_framed (h : list bucket) (tc ta : Qc) :
  Forall Lorenz64.nonneg_bucket h →
  Lorenz64.totalCount (Lorenz64.sorted_of h) = Fin tc → 0 < tc →
  Lorenz64.totalAmount (Lorenz64.sorted_of h) = Fin ta → 0 < ta →
  let pts := Lorenz64.walk (Fin tc) (Fin ta) (Fin 0) (Fin 0)
               (Lorenz64.sorted_of h) in
  StronglySorted point_le pts
  ∧ Forall (point_le (Point (Fin 0) (Fin 0))) pts
  ∧ Forall (λ q, point_le q (Point (Fin 1) (Fin 1))) pts.
Proof.
  intros Hnn Ec Htc Ea Hta pts.
  assert (Hnn' : Forall Lorenz64.nonneg_bucket (Lorenz64.sorted_of h))
    by (by rewrite sorted_of_perm).
  destruct (walk64_climbs tc ta Htc Hta (Lorenz64.sorted_of h) 0 0 tc ta)
    as (Hs & Hlo & Hhi & _); [done|done|done|exact Ec|exact Ea|].
  rewrite !js_quot_same in Hhi by by apply Qc_pos_nonzero.
  rewrite !js_quot_zero in Hlo by by apply Qc_pos_nonzero.
  done.
Qed.

(** ** The sort on binary64 midpoints *)

(** A binary64 value is a whole number of units. *)
Lemma is_double_units (a : Qc) : is_double (Fin a) → ∃ k, a = of_units k.
Proof.
  unfold is_double, round64. destruct (this a ?= 0)%Q.
  - intros [= <-]. exists 0%Z. by rewrite of_units_0.
  - destruct (_ <=? _)%Z; [done|]. intros [= <-]. eauto.
  - destruct (_ <=? _)%Z; [done|]. intros [= <-]. eauto.
Qed.

Lemma of_units_lt (k k' : Z) : of_units k < of_units k' → (k < k')%Z.
Proof.
  intros H. destruct (Z.lt_ge_cases k k') as [|Hge]; [done|].
  apply of_units_le in Hge. by apply Qcle_not_lt in Hge.
Qed.

Lemma sort_key_pos (a : Qc) (x : number) :
  0 < a → num_le (Fin a) x → 0 < sort_key x.
Proof.
  intros Ha Hx. destruct x as [r| | |]; simpl in *; try done.
  by eapply Qclt_le_trans.
Qed.

Lemma sort_key_nonpos (x : number) : num_le x (Fin 0) → ¬ 0 < sort_key x.
Proof.
  intros Hx. destruct x as [r| | |]; simpl in *; try done.
  by apply Qcle_not_lt.
Qed.

Lemma of_units_minus (k k' : Z) : of_units k - of_units k' = of_units (k - k').
Proof.
  apply Qc_is_canon. unfold Qcminus, Qcplus, Qcopp.
  generalize (this_of_units k) (this_of_units k') (this_of_units (k - k')).
  generalize (of_units k) (of_units k') (of_units (k - k')).
  intros a b c Ea Eb Ec. simpl. rewrite !Qred_correct, Ea, Eb, Ec.
  unfold Z.sub. rewrite inject_Z_plus, inject_Z_opp.
  generalize units. intros u. unfold Qdiv. ring.
Qed.

(** The difference of two binary64 values has the sign of the exact
    difference: it is not rounded to zero. *)
Lemma js_sub_sign (a b : Qc) :
  is_double (Fin a) → is_double (Fin b) →
  0 < sort_key (js_sub (Fin a) (Fin b)) ↔ 0 < a - b.
Proof.
  intros [ka ->]%is_double_units [kb ->]%is_double_units.
  change (js_sub (Fin (of_units ka)) (Fin (of_units kb)))
    with (round64 (this (of_units ka - of_units kb))).
  rewrite of_units_minus. split.
  - intros Hkey.
    destruct (Qclt_le_dec 0 (of_units (ka - kb))) as [|Hle]; [done|].
    pose proof (round64_mono _ _ Hle) as Hm.
    rewrite (round64_zero (this 0)) in Hm by reflexivity.
    by apply sort_key_nonpos in Hm.
  - intros Hlt.
    assert (Hk : (0 < ka - kb)%Z).
    { apply of_units_lt. by rewrite of_units_0. }
    assert (Hge : of_units 1 ≤ of_units (ka - kb)) by (apply of_units_le; lia).
    pose proof (round64_mono _ _ Hge) as Hm.
    assert (H1 : round64 (this (of_units 1)) = Fin (of_units 1))
      by by_evaluation.
    rewrite H1 in Hm. clear H1.
    apply (sort_key_pos (of_units 1)); [by_evaluation|done].
Qed.

Section sort_ext.
Context {A : Type} (c1 c2 : A → A → Qc) (P : A → Prop).
Context (Hsign : ∀ x y, P x → P y → 0 < c1 x y ↔ 0 < c2 x y).

Lemma insert_ext (x : A) (l : list A) :
  P x → Forall P l → insert c1 x l = insert c2 x l.
Proof.
  intros Hx. induction 1 as [|y l Hy Hl IH]; [done|].
  simpl. rewrite IH.
  destruct (decide (0 < c1 x y)) as [H|H], (decide (0 < c2 x y)) as [H'|H'];
    try done; exfalso.
  - by apply H', Hsign.
  - by apply H, Hsign.
Qed.

(** Compare functions that agree in sign sort alike. *)
Lemma js_sort_ext (l : list A) : Forall P l → js_sort c1 l = js_sort c2 l.
Proof.
  induction 1 as [|x l Hx Hl IH]; [done|].
  unfold js_sort in *. simpl. rewrite IH.
  apply insert_ext; [done|]. fold (js_sort c2 l). by rewrite js_sort_perm.
Qed.
End sort_ext.

(** On a histogram whose midpoints are binary64 values, the sort by the
    rounded difference is the sort by the exact difference. *)
Lemma sorted_of_exact (h : list bucket) :
  Forall (λ d, is_double (Fin (mid d))) h →
  Lorenz64.sorted_of h = js_sort by_mid h.
Proof.
  intros Hh. unfold Lorenz64.sorted_of.
  apply (js_sort_ext _ _ (λ d, is_double (Fin (mid d)))); [|done].
  intros x y Hx Hy. unfold Lorenz64.by_mid, Lorenz64.mid_of, Lorenz64.parse.
  unfold is_double in Hx, Hy. rewrite Hx, Hy.
  by apply js_sub_sign.
Qed.

(** ** Where the two readings agree *)

(** On the histograms of the scenarios above no operation rounds: the
    binary64 curve is the exact curve. *)
Lemma exact_on_scenarios :
  Forall (λ h, Lorenz64.lorenzData h = lorenzData h)
    [[bkt 10 2; bkt 30 2]; [bkt (-10) 1; bkt 30 1];
     [bkt 10 1; bkt 10 3]; [bkt 10 3; bkt 10 1]; [bkt 10 0; bkt 30 0]; []].
Proof.
  repeat (apply Forall_cons; split; [cbv beta; by_evaluation|]). apply Forall_nil_2.
Qed.

(** ** Monotonicity *)

(** C2, amended: for every non-empty histogram whose midpoints and
    counts are all non-negative and whose total count and total amount,
    as the derivation computes them, are both positive and finite, the
    curve is non-decreasing in both coordinates, starts at (0,0), ends
    at (1,1), and has length input length plus 2. *)
Theorem curve_monotone (h : list bucket) :
  h ≠ [] → Forall Lorenz64.nonneg_bucket h →
  Lorenz64.positive_finite (Lorenz64.totalCount (Lorenz64.sorted_of h)) →
  Lorenz64.positive_finite (Lorenz64.totalAmount (Lorenz64.sorted_of h)) →
  non_decreasing (Lorenz64.lorenzData h)
  ∧ head (Lorenz64.lorenzData h) = Some (Point (Fin 0) (Fin 0))
  ∧ last (Lorenz64.lorenzData h) = Some (Point (Fin 1) (Fin 1))
  ∧ length (Lorenz64.lorenzData h) = (length h + 2)%nat.
Proof.
  intros Hh Hnn Hc Ha. rewrite lorenzData64_nonempty by done.
  destruct (Lorenz64.totalCount (Lorenz64.sorted_of h)) as [tc| | |] eqn:Ec;
    try done.
  destruct (Lorenz64.totalAmount (Lorenz64.sorted_of h)) as [ta| | |] eqn:Ea;
    try done.
  destruct (walk64_framed h tc ta Hnn Ec Hc Ea Ha) as (Hs & Hlo & Hhi).
  repeat split.
  - apply StronglySorted_cons. split.
    + apply Forall_app. split; [done|]. by repeat constructor.
    + apply StronglySorted_app_2; [|done|repeat constructor].
      intros q1 q2 Hq1 ->%list_elem_of_singleton.
      by apply (proj1 (Forall_forall _ _) Hhi).
  - by rewrite last_cons, last_snoc.
  - simpl. rewrite length_app, walk64_length, sorted_of_length. simpl. lia.
Qed.

Lemma curve_monotone_witness :
  let h := [Bucket (Q2Qc (1 # 10)) (Some (Qc_of_Z 3));
            Bucket (Q2Qc (1 # 5)) (Some (Qc_of_Z 1));
            Bucket (Q2Qc (7 # 10)) (Some (Qc_of_Z 3))] in
  non_decreasing (Lorenz64.lorenzData h)
  ∧ length (Lorenz64.lorenzData h) = 5%nat.
Proof.
  cbv zeta.
  refine ((λ H, conj (proj1 H) (proj2 (proj2 (proj2 H))))
    (curve_monotone [Bucket (Q2Qc (1 # 10)) (Some (Qc_of_Z 3));
                     Bucket (Q2Qc (1 # 5)) (Some (Qc_of_Z 1));
                     Bucket (Q2Qc (7 # 10)) (Some (Qc_of_Z 3))] _ _ _ _)).
  - done.
  - repeat constructor; by vm_compute.
  - by vm_compute.
  - by vm_compute.
Defined.

(** With non-negative midpoints and counts and totals that the
    derivation computes as positive and finite, every point of the
    curve lies in the unit square. *)
Theorem curve_in_unit_square (h : list bucket) :
  h ≠ [] → Forall Lorenz64.nonneg_bucket h →
  Lorenz64.positive_finite (Lorenz64.totalCount (Lorenz64.sorted_of h)) →
  Lorenz64.positive_finite (Lorenz64.totalAmount (Lorenz64.sorted_of h)) →
  Forall in_unit_square (Lorenz64.lorenzData h).
Proof.
  intros Hh Hnn Hc Ha. rewrite lorenzData64_nonempty by done.
  destruct (Lorenz64.totalCount (Lorenz64.sorted_of h)) as [tc| | |] eqn:Ec;
    try done.
  destruct (Lorenz64.totalAmount (Lorenz64.sorted_of h)) as [ta| | |] eqn:Ea;
    try done.
  destruct (walk64_framed h tc ta Hnn Ec Hc Ea Ha) as (_ & Hlo & Hhi).
  assert (H01 : (0 : Qc) ≤ 1) by by_evaluation.
  constructor; [by repeat split|].
  apply Forall_app. split; [|by repeat constructor].
  apply Forall_forall. intros q Hq.
  destruct (proj1 (Forall_forall _ _) Hlo q Hq) as [??].
  destruct (proj1 (Forall_forall _ _) Hhi q Hq) as [??].
  by repeat split.
Qed.

Lemma curve_in_unit_square_witness :
  Forall in_unit_square
    (Lorenz64.lorenzData [Bucket (Q2Qc (1 # 10)) (Some (Qc_of_Z 1));
                          Bucket (Q2Qc (1 # 10)) (Some (Qc_of_Z 1));
                          Bucket (Q2Qc (1 # 10)) (Some (Qc_of_Z 1));
                          Bucket (Q2Qc (1 # 10)) (Some (Qc_of_Z 1))]).
Proof.
  apply (curve_in_unit_square
           [Bucket (Q2Qc (1 # 10)) (Some (Qc_of_Z 1));
            Bucket (Q2Qc (1 # 10)) (Some (Qc_of_Z 1));
            Bucket (Q2Qc (1 # 10)) (Some (Qc_of_Z 1));
            Bucket (Q2Qc (1 # 10)) (Some (Qc_of_Z 1))]).
  - done.
  - repeat constructor; by vm_compute.
  - by vm_compute.
  - by vm_compute.
Defined.

(** ** Finite curves *)

Lemma js_quot_self_finite (x : number) :
  is_finite (js_quot x x) → Lorenz64.nonzero_finite x.
Proof.
  destruct x as [t| | |]; try done. intros H Ht. simpl in Ht. subst t.
  revert H. by_evaluation.
Qed.

(** Sums of terms that are not negative are not negative. *)
Lemma totals64_nonneg (h : list bucket) (tc ta : Qc) :
  Forall Lorenz64.nonneg_bucket h →
  Lorenz64.totalCount (Lorenz64.sorted_of h) = Fin tc →
  Lorenz64.totalAmount (Lorenz64.sorted_of h) = Fin ta →
  0 ≤ tc ∧ 0 ≤ ta.
Proof.
  intros Hnn Ec Ea.
  assert (Hnn' : Forall Lorenz64.nonneg_bucket (Lorenz64.sorted_of h))
    by (by rewrite sorted_of_perm).
  assert (H1 : (0 : Qc) < 1) by by_evaluation.
  by destruct (walk64_climbs 1 1 H1 H1 (Lorenz64.sorted_of h) 0 0 tc ta)
    as (_ & _ & _ & ? & ?).
Qed.

(** For a non-empty histogram whose midpoints and counts are not
    negative, the curve is free of [NaN] and of infinities exactly when
    the total count and the total amount that the derivation computes
    are both nonzero and finite. *)
Theorem curve_finite_iff (h : list bucket) :
  h ≠ [] → Forall Lorenz64.nonneg_bucket h →
  Forall (λ q, is_finite (p q) ∧ is_finite (L q)) (Lorenz64.lorenzData h)
  ↔ Lorenz64.nonzero_finite (Lorenz64.totalCount (Lorenz64.sorted_of h))
    ∧ Lorenz64.nonzero_finite (Lorenz64.totalAmount (Lorenz64.sorted_of h)).
Proof.
  intros Hh Hnn. rewrite lorenzData64_nonempty by done.
  assert (Hs : Lorenz64.sorted_of h ≠ [])
    by (intros E; by apply sorted_of_nil_inv in E).
  split.
  - intros Hfin. apply Forall_cons in Hfin as [_ Hfin].
    apply Forall_app in Hfin as [Hfin _].
    pose proof (walk64_last (Lorenz64.totalCount (Lorenz64.sorted_of h))
      (Lorenz64.totalAmount (Lorenz64.sorted_of h))
      (Lorenz64.sorted_of h) (Fin 0) (Fin 0) Hs) as Hlast.
    apply last_Some in Hlast as [front Hlast].
    fold (Lorenz64.totalCount (Lorenz64.sorted_of h)) in Hlast.
    fold (Lorenz64.totalAmount (Lorenz64.sorted_of h)) in Hlast.
    rewrite Hlast in Hfin. apply Forall_app in Hfin as [_ Hfin].
    apply Forall_singleton in Hfin as [Hp HL]. simpl in Hp, HL.
    split; by apply js_quot_self_finite.
  - intros [Hc Ha].
    destruct (Lorenz64.totalCount (Lorenz64.sorted_of h)) as [tc| | |] eqn:Ec;
      try done.
    destruct (Lorenz64.totalAmount (Lorenz64.sorted_of h)) as [ta| | |] eqn:Ea;
      try done.
    simpl in Hc, Ha.
    destruct (totals64_nonneg h tc ta Hnn Ec Ea) as [Hc0 Ha0].
    assert (Htc : 0 < tc).
    { apply Qcle_lt_or_eq in Hc0 as [?|?]; [done|]. by destruct Hc. }
    assert (Hta : 0 < ta).
    { apply Qcle_lt_or_eq in Ha0 as [?|?]; [done|]. by destruct Ha. }
    destruct (walk64_framed h tc ta Hnn Ec Htc Ea Hta) as (_ & Hlo & Hhi).
    constructor; [done|]. apply Forall_app. split; [|by repeat constructor].
    apply Forall_forall. intros q Hq.
    destruct (proj1 (Forall_forall _ _) Hlo q Hq) as [Hp0 HL0].
    destruct (proj1 (Forall_forall _ _) Hhi q Hq) as [Hp1 HL1].
    simpl in *. by destruct (p q), (L q).
Qed.

Lemma curve_finite_iff_witness :
  Forall (λ q, is_finite (p q) ∧ is_finite (L q))
    (Lorenz64.lorenzData [Bucket (Q2Qc (1 # 10)) (Some (Qc_of_Z 3));
                          Bucket (Q2Qc (1 # 5)) None;
                          Bucket (Q2Qc (7 # 10)) (Some (Qc_of_Z 3))]).
Proof.
  apply (curve_finite_iff [Bucket (Q2Qc (1 # 10)) (Some (Qc_of_Z 3));
                           Bucket (Q2Qc (1 # 5)) None;
                           Bucket (Q2Qc (7 # 10)) (Some (Qc_of_Z 3))]).
  - done.
  - repeat constructor; by vm_compute.
  - split; by vm_compute.
Defined.

(** ** Division by a zero total *)

(** C4: the two divisions are not guarded.  The all-zero histogram
    [[{mid:10,count:0},{mid:30,count:0}]] is non-empty, the derivation
    computes its total count and its total amount as zero, and its
    curve contains a point whose two coordinates are not finite; and in
    general, whenever the total count (the total amount) that the
    derivation computes is zero, the [p] (the [L]) of every point
    computed from a bucket is not finite. *)
Theorem division_by_zero_unguarded :
  (∃ h : list bucket,
     h ≠ []
     ∧ Lorenz64.totalCount (Lorenz64.sorted_of h) = Fin 0
     ∧ Lorenz64.totalAmount (Lorenz64.sorted_of h) = Fin 0
     ∧ ∃ q, q ∈ Lorenz64.lorenzData h ∧ is_finite (p q) = false
            ∧ is_finite (L q) = false)
  ∧ (∀ (h : list bucket) (i : nat) (q : point),
       (i < length h)%nat → Lorenz64.lorenzData h !! S i = Some q →
       (Lorenz64.totalCount (Lorenz64.sorted_of h) = Fin 0
          → is_finite (p q) = false)
       ∧ (Lorenz64.totalAmount (Lorenz64.sorted_of h) = Fin 0
          → is_finite (L q) = false)).
Proof.
  split.
  - exists [bkt 10 0; bkt 30 0]. split; [done|].
    split; [by_evaluation|]. split; [by_evaluation|].
    exists (Point NaN NaN). split; [|done].
    apply list_elem_of_lookup. exists 1%nat. by_evaluation.
  - intros h i q Hi Hq.
    rewrite lorenzData64_nonempty in Hq by (intros ->; simpl in Hi; lia).
    change ((?x :: ?l) !! S i) with (l !! i) in Hq.
    rewrite lookup_app_l in Hq by (by rewrite walk64_length, sorted_of_length).
    destruct (Forall_lookup_1 _ _ _ _ (walk64_quotients _ _ _ _ _) Hq)
      as (x & y & ->).
    simpl. split; intros ->; apply js_quot_by_zero.
Qed.

Lemma division_by_zero_unguarded_witness :
  let h := [bkt 10 0; bkt 30 0] in
  ∃ q, Lorenz64.lorenzData h !! 2%nat = Some q ∧ is_finite (p q) = false
       ∧ is_finite (L q) = false.
Proof.
  exists (Point NaN NaN). split; [by_evaluation|].
  refine ((λ H, conj (proj1 H _) (proj2 H _))
    (proj2 division_by_zero_unguarded [bkt 10 0; bkt 30 0] 1%nat
       (Point NaN NaN) _ _)).
  - by_evaluation.
  - by_evaluation.
  - simpl. lia.
  - by_evaluation.
Defined.

(** ** The last computed point *)

(** C9, as stated, fails: the histogram
    [[{mid:2^1023,count:2},{mid:2^1023,count:1}]] is non-empty, its total
    count 3 and its total amount 3 * 2^1023 are not zero, and the
    derivation computes the total count 3 and, the sum of the amounts
    overflowing, the total amount [Infinity], which is not zero either;
    yet the last point of the walk is (1, NaN), not (1,1). *)
Lemma infinite_total_last_point_not_anchor :
  let h := [Lorenz64.bkt2 1 1023 2; Lorenz64.bkt2 1 1023 1] in
  let sorted := Lorenz64.sorted_of h in
  h ≠ []
  ∧ totalCount h ≠ 0 ∧ totalAmount h ≠ 0
  ∧ Lorenz64.totalCount sorted = Fin (Qc_of_Z 3)
  ∧ Lorenz64.totalAmount sorted = PosInf
  ∧ Lorenz64.lorenzData h
    = [pt (frac 0 1) (frac 0 1);
       pt (frac 6004799503160661 9007199254740992) NaN; pt (frac 1 1) NaN;
       pt (frac 1 1) (frac 1 1)]
  ∧ last (Lorenz64.walk (Lorenz64.totalCount sorted)
            (Lorenz64.totalAmount sorted) (Fin 0) (Fin 0) sorted)
    ≠ Some (Point (Fin 1) (Fin 1)).
Proof.
  cbv zeta. split; [done|]. do 5 (split; [by_evaluation|]). by_evaluation.
Qed.

(** C9, amended: for every non-empty histogram, the last point of the
    cumulative walk is (1,1) exactly when the total count and the total
    amount that the derivation computes are both nonzero and finite;
    the curve then ends with two copies of (1,1): the appended anchor
    repeats the last computed point. *)
Theorem last_point_duplicates_anchor (h : list bucket) :
  h ≠ [] →
  let sorted := Lorenz64.sorted_of h in
  let pts := Lorenz64.walk (Lorenz64.totalCount sorted)
               (Lorenz64.totalAmount sorted) (Fin 0) (Fin 0) sorted in
  (last pts = Some (Point (Fin 1) (Fin 1))
   ↔ Lorenz64.nonzero_finite (Lorenz64.totalCount sorted)
     ∧ Lorenz64.nonzero_finite (Lorenz64.totalAmount sorted))
  ∧ (Lorenz64.nonzero_finite (Lorenz64.totalCount sorted) →
     Lorenz64.nonzero_finite (Lorenz64.totalAmount sorted) →
     ∃ front, Lorenz64.lorenzData h
              = front ++ [Point (Fin 1) (Fin 1); Point (Fin 1) (Fin 1)]).
Proof.
  intros Hh sorted pts.
  assert (Hs : sorted ≠ []) by (intros E; by apply sorted_of_nil_inv in E).
  assert (Hlast : last pts
    = Some (Point
        (js_quot (Lorenz64.totalCount sorted) (Lorenz64.totalCount sorted))
        (js_quot (Lorenz64.totalAmount sorted) (Lorenz64.totalAmount sorted))))
    by (by apply walk64_last).
  assert (Hiff : last pts = Some (Point (Fin 1) (Fin 1))
   ↔ Lorenz64.nonzero_finite (Lorenz64.totalCount sorted)
     ∧ Lorenz64.nonzero_finite (Lorenz64.totalAmount sorted)).
  { rewrite Hlast, <-!js_quot_self. split.
    - by intros [= -> ->].
    - by intros [-> ->]. }
  split; [done|]. intros Hc Ha.
  rewrite lorenzData64_nonempty by done. fold sorted pts.
  pose proof (proj2 Hiff (conj Hc Ha)) as Hl.
  apply last_Some in Hl as [front ->].
  exists (Point (Fin 0) (Fin 0) :: front). by rewrite <-app_assoc.
Qed.

Lemma last_point_duplicates_anchor_witness :
  ∃ front, Lorenz64.lorenzData [Bucket (Q2Qc (1 # 10)) (Some (Qc_of_Z 3));
                                Bucket (Q2Qc (7 # 10)) (Some (Qc_of_Z 3))]
           = front ++ [Point (Fin 1) (Fin 1); Point (Fin 1) (Fin 1)].
Proof.
  apply (last_point_duplicates_anchor
           [Bucket (Q2Qc (1 # 10)) (Some (Qc_of_Z 3));
            Bucket (Q2Qc (7 # 10)) (Some (Qc_of_Z 3))]);
    [done | by vm_compute | by vm_compute].
Defined.

(** * Facts about the dashboard view *)

Import Dashboard.

(** ** [Promise.all] *)

Lemma Promise_all_resolves {A} (ps : list (promise A)) :
  Forall (λ p, is_ok p) ps →
  ∃ vs, Promise_all ps = Ok vs ∧ Forall2 (λ p v, p = Ok v) ps vs.
Proof.
  induction 1 as [|[v|e] ps Hp _ [vs [E Hvs]]]; simpl.
  - by exists [].
  - rewrite E. exists (v :: vs). split; [done|]. by constructor.
  - done.
Qed.

Lemma Promise_all_rejects {A} (ps : list (promise A)) :
  Exists (λ p, ¬ is_ok p) ps → ∃ e, Promise_all ps = Throw e.
Proof.
  induction 1 as [[v|e] ps Hp|[v|e] ps _ [e' E]]; simpl; eauto.
  - by destruct Hp.
  - rewrite E. eauto.
Qed.

Lemma Promise_all_ok_inv {A} (ps : list (promise A)) (vs : list A) :
  Promise_all ps = Ok vs → Forall (λ p, is_ok p) ps.
Proof.
  revert vs. induction ps as [|[v|e] ps IH]; intros vs; simpl; [done| |done].
  destruct (Promise_all ps) eqn:E; [|done]. intros _. constructor; eauto.
Qed.

(** ** The refresh *)

Lemma refreshAll_unfold (net : network) (c : component) :
  refreshAll net c
  = match Promise_all (net <$> refresh_requests) with
    | Ok values =>
        (Ok tt, with_view (refreshed values (view c)) (requests_sent c))
    | Throw e => (Throw e, requests_sent c)
    end.
Proof.
  cbv [refreshAll mbind M_bind send await fmap list_fmap refresh_requests
       setSummary setCategorySpend setFraudTrend setTable setAmountByGender
       setFraudByCategory setAvgAmountByCategory setTopMerchants
       setAmountHistogram update with_view requests_sent refreshed
       view pollRef ws mounted sent timers intervals_set sockets_opened
       summary categorySpend fraudTrend table file newTx amountByGender
       fraudByCategory avgAmountByCategory topMerchants amountHistogram].
  destruct c as [[] ???????]. rewrite <-!app_assoc.
  destruct (Promise_all _); reflexivity.
Qed.

(** From here on [refreshAll] is used through [refreshAll_unfold]. *)
#[global] Opaque refreshAll.

Lemma Forall_ok_fmap (net : network) (l : list request) :
  Forall (λ q, is_ok (net q)) l ↔ Forall (λ p, is_ok p) (net <$> l).
Proof.
  induction l as [|q l IH]; [by split; constructor|].
  rewrite fmap_cons, !Forall_cons. by rewrite IH.
Qed.

(** C6: a refresh sends all nine dataset requests before it looks at any
    answer, and it resolves exactly when all nine resolve, in which case
    each of the nine datasets is replaced by the body of its request and
    nothing else of the view changes.  If any one of the nine fails, the
    refresh fails, none of the nine datasets is updated and the state is
    unchanged: only the record of requests sent has grown. *)
Theorem refresh_all_or_nothing (net : network) (c : component) :
  let r := (refreshAll net c).1 in
  let c' := (refreshAll net c).2 in
  length refresh_requests = 9%nat
  ∧ sent c' = sent c ++ refresh_requests
  ∧ (is_ok r ↔ Forall (λ q, is_ok (net q)) refresh_requests)
  ∧ (Forall (λ q, is_ok (net q)) refresh_requests →
       r = Ok tt
       ∧ Forall2 (λ q v, net q = Ok v) refresh_requests (datasets (view c'))
       ∧ file (view c') = file (view c) ∧ newTx (view c') = newTx (view c))
  ∧ (Exists (λ q, ¬ is_ok (net q)) refresh_requests →
       (∃ e, r = Throw e)
       ∧ c' = requests_sent c
       ∧ view c' = view c).
Proof.
  cbv zeta. rewrite refreshAll_unfold.
  split; [done|]. split; [by destruct (Promise_all _)|].
  split; [|split].
  - split.
    + destruct (Promise_all _) as [vs|e] eqn:E; [|done]. intros _.
      by apply Promise_all_ok_inv, Forall_ok_fmap in E.
    + intros Hall. apply Forall_ok_fmap, Promise_all_resolves in Hall
        as [vs [-> _]]. done.
  - intros Hall. apply Forall_ok_fmap, Promise_all_resolves in Hall
      as [vs [-> Hvs]].
    split; [done|]. split; [|done].
    apply Forall2_fmap_l in Hvs.
    pose proof (Forall2_length _ _ _ Hvs) as Hlen.
    do 10 (destruct vs as [|? vs]; try discriminate Hlen).
    exact Hvs.
  - intros Hex.
    assert (Hex' : Exists (λ p : promise json, ¬ is_ok p)
                     (net <$> refresh_requests)).
    { apply Exists_fmap. exact Hex. }
    apply Promise_all_rejects in Hex' as [e ->]. eauto.
Qed.

Lemma refresh_all_or_nothing_witness :
  (∃ e, (refreshAll (failing "/fraud-trend") rendered).1 = Throw e)
  ∧ view (refreshAll (failing "/fraud-trend") rendered).2 = initial_view.
Proof.
  refine ((λ H, conj (proj1 H) (proj2 (proj2 H)))
    (proj2 (proj2 (proj2 (proj2
       (refresh_all_or_nothing (failing "/fraud-trend") rendered)))) _)).
  do 2 apply Exists_cons_tl. apply Exists_cons_hd. simpl. tauto.
Defined.

(** ** Upload *)

(** C8: with no file selected the upload control is disabled, and the
    upload handler returns at once: it sends no request and leaves the
    whole state as it was. *)
Theorem upload_without_file_is_inert (net : network) (c : component) :
  file (view c) = None →
  upload_disabled (view c) = true
  ∧ onUpload net c = (Ok tt, c)
  ∧ sent (onUpload net c).2 = sent c.
Proof.
  intros Hf.
  assert (E : onUpload net c = (Ok tt, c)).
  { unfold onUpload, mbind, M_bind, get_view. by rewrite Hf. }
  rewrite E. unfold upload_disabled. by rewrite Hf.
Qed.

Lemma upload_without_file_is_inert_witness :
  onUpload (failing "/ingest/csv") rendered = (Ok tt, rendered).
Proof.
  apply (upload_without_file_is_inert (failing "/ingest/csv") rendered).
  reflexivity.
Defined.

(** ** Polling *)

(** A refresh touches the state cells and the record of requests only. *)
Lemma refreshAll_frame (net : network) (c : component) :
  let c' := (refreshAll net c).2 in
  pollRef c' = pollRef c ∧ ws c' = ws c ∧ mounted c' = mounted c
  ∧ timers c' = timers c ∧ intervals_set c' = intervals_set c
  ∧ sockets_opened c' = sockets_opened c.
Proof. cbv zeta. rewrite refreshAll_unfold. by destruct (Promise_all _). Qed.

Lemma refreshAll_pollRef (net : network) (c : component) :
  pollRef (refreshAll net c).2 = pollRef c.
Proof. apply refreshAll_frame. Qed.

Lemma refreshAll_timers (net : network) (c : component) :
  timers (refreshAll net c).2 = timers c.
Proof. apply refreshAll_frame. Qed.

Lemma refreshAll_mounted (net : network) (c : component) :
  mounted (refreshAll net c).2 = mounted c.
Proof. apply refreshAll_frame. Qed.

Lemma refreshAll_ws (net : network) (c : component) :
  ws (refreshAll net c).2 = ws c.
Proof. apply refreshAll_frame. Qed.

(** Arming the poll timer when one was armed before does nothing. *)
Lemma startPolling_armed (c : component) (id : positive) :
  pollRef c = Some id → startPolling c = (Ok tt, c).
Proof.
  intros Hp. unfold startPolling, mbind, M_bind, get_pollRef.
  by rewrite Hp.
Qed.

(** Arming it for the first time sets one interval timer that runs
    [refreshAll] every 5000 ms, and records its id in [pollRef]. *)
Lemma startPolling_unarmed (c : component) :
  pollRef c = None →
  startPolling c
  = (Ok tt,
     Component (view c) (Some (Pos.of_succ_nat (intervals_set c))) (ws c)
       (mounted c) (sent c)
       (timers c ++ [poll_timer (Pos.of_succ_nat (intervals_set c))])
       (S (intervals_set c)) (sockets_opened c)).
Proof.
  intros Hp. unfold startPolling, mbind, M_bind, get_pollRef.
  by rewrite Hp.
Qed.

Lemma startPolling_inv (c : component) :
  poll_inv c → poll_inv (startPolling c).2.
Proof.
  unfold poll_inv. destruct (pollRef c) as [id|] eqn:Hp.
  - rewrite (startPolling_armed c id Hp). simpl. by rewrite Hp.
  - rewrite (startPolling_unarmed c Hp). simpl. intros [-> ->]. auto.
Qed.

Lemma startPolling_frame (c : component) :
  ws (startPolling c).2 = ws c ∧ mounted (startPolling c).2 = mounted c
  ∧ sockets_opened (startPolling c).2 = sockets_opened c.
Proof.
  destruct (pollRef c) as [id|] eqn:Hp.
  - by rewrite (startPolling_armed c id Hp).
  - by rewrite (startPolling_unarmed c Hp).
Qed.

Lemma poll_inv_frame (c c' : component) :
  pollRef c' = pollRef c → timers c' = timers c →
  intervals_set c' = intervals_set c → poll_inv c → poll_inv c'.
Proof. unfold poll_inv. by intros -> -> ->. Qed.

Lemma spawn_snd (m : M unit) (c : component) : (spawn m c).2 = (m c).2.
Proof. reflexivity. Qed.

Lemma spawn_refreshAll_inv (net : network) (c : component) :
  poll_inv c → poll_inv (spawn (refreshAll net) c).2.
Proof.
  destruct (refreshAll_frame net c) as (H1 & _ & _ & H4 & H5 & _).
  rewrite spawn_snd. exact (poll_inv_frame c _ H1 H4 H5).
Qed.

Lemma cleanup_unfold (c : component) : cleanup c = (Ok tt, cleaned c).
Proof.
  unfold cleanup, cleaned, ws_close, mbind, M_bind, get_pollRef, set_ws,
    clearInterval.
  destruct c as [v r w m s t i o].
  destruct w as [[]|]; simpl; destruct r; reflexivity.
Qed.

Lemma unmount_unfold (c : component) :
  step c Unmount
  = if mounted c
    then Component (view c) (pollRef c) (ws (cleaned c)) false (sent c)
           (timers (cleaned c)) (intervals_set c) (sockets_opened c)
    else c.
Proof.
  unfold step, handle. destruct (mounted c); [|done].
  unfold mbind, M_bind. by rewrite cleanup_unfold.
Qed.

Lemma cleanup_inv (c : component) : poll_inv c → poll_inv (cleanup c).2.
Proof.
  rewrite cleanup_unfold. unfold poll_inv, cleaned. simpl.
  destruct (pollRef c) as [id|]; [|done].
  intros (-> & ? & [->| ->]); simpl; auto.
Qed.

(** Every handler keeps the invariant. *)
Lemma step_inv (c : component) (e : event) : poll_inv c → poll_inv (step c e).
Proof.
  intros Hc. destruct e as [|net| | |id net|]; [unfold step, handle..|].
  - destruct (ws c) as [[]|]; exact Hc.
  - destruct (ws c) as [[]|]; cbv beta iota;
      lazymatch goal with
      | |- poll_inv (spawn _ _).2 => apply spawn_refreshAll_inv; exact Hc
      | |- _ => exact Hc
      end.
  - destruct (ws c) as [[]|]; cbv beta iota;
      lazymatch goal with
      | |- poll_inv (startPolling _).2 => apply startPolling_inv; exact Hc
      | |- _ => exact Hc
      end.
  - destruct (ws c) as [[]|]; cbv beta iota;
      lazymatch goal with
      | |- poll_inv (Ok _, _).2 => exact Hc
      | |- _ => apply (startPolling_inv (set_ws (Some CLOSED) c).2); exact Hc
      end.
  - destruct (list_find _ _) as [[? [? []]]|]; [|exact Hc].
    unfold run_callback, timer_callback.
    apply spawn_refreshAll_inv; exact Hc.
  - rewrite unmount_unfold. destruct (mounted c); [|exact Hc].
    apply cleanup_inv in Hc. rewrite cleanup_unfold in Hc. exact Hc.
Qed.

Lemma run_inv (trace : list event) (c : component) :
  poll_inv c → poll_inv (run trace c).
Proof.
  revert c. induction trace as [|e trace IH]; intros c Hc; [done|].
  by apply IH, step_inv.
Qed.

Lemma mount_inv (ws_ok : bool) (net : network) : poll_inv (mount ws_ok net).
Proof.
  unfold mount, effect, mbind, M_bind.
  pose proof (spawn_refreshAll_inv net rendered) as H.
  fold rendered. destruct (spawn (refreshAll net) rendered) as [[[]|e] c] eqn:E;
    [|done].
  simpl in H. specialize (H (conj eq_refl eq_refl)).
  unfold try_catch, new_WebSocket. destruct ws_ok; [done|].
  by apply startPolling_inv.
Qed.

(** No handler opens a socket: the one opened by the mount effect is
    never replaced. *)
Lemma step_sockets_opened (c : component) (e : event) :
  sockets_opened (step c e) = sockets_opened c.
Proof.
  destruct e as [|net| | |id net|]; [unfold step, handle..|].
  - destruct (ws c) as [[]|]; reflexivity.
  - destruct (ws c) as [[]|]; cbv beta iota;
      lazymatch goal with
      | |- context [spawn] => rewrite spawn_snd; apply refreshAll_frame
      | |- _ => reflexivity
      end.
  - destruct (ws c) as [[]|]; cbv beta iota;
      lazymatch goal with
      | |- context [startPolling] => apply startPolling_frame
      | |- _ => reflexivity
      end.
  - destruct (ws c) as [[]|]; cbv beta iota;
      lazymatch goal with
      | |- context [startPolling] =>
          apply (startPolling_frame (set_ws (Some CLOSED) c).2)
      | |- _ => reflexivity
      end.
  - destruct (list_find _ _) as [[? [? []]]|]; [|reflexivity].
    unfold run_callback, timer_callback. rewrite spawn_snd.
    apply refreshAll_frame.
  - rewrite unmount_unfold. by destruct (mounted c).
Qed.

Lemma run_sockets_opened (trace : list event) (c : component) :
  sockets_opened (run trace c) = sockets_opened c.
Proof.
  revert c. induction trace as [|e trace IH]; intros c; [done|].
  simpl. by rewrite IH, step_sockets_opened.
Qed.

(** The mounted view: connecting to the push channel, with no timer,
    when the socket could be constructed; polling, with no socket,
    when the constructor threw. *)
Lemma mount_connecting (net : network) :
  ∃ v s, mount true net
         = Component v None (Some CONNECTING) true s [] 0 1.
Proof.
  destruct (refreshAll_frame net rendered) as (Hp & _ & Hm & Ht & Hi & Hs).
  unfold mount, effect, mbind, M_bind, spawn. fold rendered. cbv beta iota.
  unfold try_catch, new_WebSocket. cbv beta iota. unfold snd at 1.
  rewrite Hp, Hm, Ht, Hi, Hs. simpl. eauto.
Qed.

Lemma mount_fallback (net : network) :
  ∃ v s, mount false net
         = Component v (Some 1%positive) None true s [poll_timer 1] 1 0.
Proof.
  destruct (refreshAll_frame net rendered) as (Hp & Hw & Hm & Ht & Hi & Hs).
  unfold mount, effect, mbind, M_bind, spawn. fold rendered. cbv beta iota.
  unfold try_catch, new_WebSocket. cbv beta iota.
  rewrite startPolling_unarmed by (by rewrite Hp). unfold snd at 1.
  rewrite Hw, Hm, Ht, Hi, Hs. simpl. eauto.
Qed.

(** Whatever happens after a mount, [setInterval] was called at most
    once, at most one timer is active and it is the 5000 ms refresh
    timer, and at most one socket was ever opened. *)
Lemma at_most_one_timer (ws_ok : bool) (net : network) (trace : list event) :
  let c := run trace (mount ws_ok net) in
  (intervals_set c ≤ 1)%nat
  ∧ (timers c = [poll_timer 1] ∨ timers c = [])
  ∧ (sockets_opened c ≤ 1)%nat.
Proof.
  cbv zeta. pose proof (run_inv trace _ (mount_inv ws_ok net)) as H.
  rewrite run_sockets_opened. unfold poll_inv in H.
  split; [|split].
  - destruct (pollRef _); [destruct H as (_ & -> & _)|destruct H as [_ ->]]; lia.
  - destruct (pollRef _); [by destruct H as (_ & _ & ?)|destruct H as [-> _]; auto].
  - destruct ws_ok.
    + destruct (mount_connecting net) as (v & s & ->). simpl. lia.
    + destruct (mount_fallback net) as (v & s & ->). simpl. lia.
Qed.

Lemma set_ws_startPolling_armed (c : component) (s : ready_state)
    (id : positive) :
  pollRef c = Some id →
  ((set_ws (Some s);; startPolling) c).2 = (set_ws (Some s) c).2.
Proof.
  intros Hp. unfold mbind, M_bind. cbn [set_ws].
  by rewrite (startPolling_armed _ id).
Qed.

(** While the view stays mounted a running poll timer keeps running:
    no event but the unmount stops it, and none arms a second one. *)
Lemma step_polling (c : component) (e : event) :
  polling c → e ≠ Unmount → polling (step c e).
Proof.
  intros [Hp Ht] He. unfold step, handle, polling.
  destruct e as [|net| | |id net|]; [| | | | |done].
  - by destruct (ws c) as [[]|].
  - destruct (ws c) as [[]|]; cbv beta iota;
      rewrite ?spawn_snd, ?refreshAll_pollRef, ?refreshAll_timers; done.
  - destruct (ws c) as [[]|]; cbv beta iota;
      rewrite ?(startPolling_armed c _ Hp); done.
  - destruct (ws c) as [[]|]; cbv beta iota;
      rewrite ?(set_ws_startPolling_armed c CLOSED _ Hp); done.
  - destruct (list_find _ _) as [[? [? []]]|]; [|done].
    unfold run_callback, timer_callback.
    by rewrite spawn_snd, refreshAll_pollRef, refreshAll_timers.
Qed.

Lemma run_polling (trace : list event) (c : component) :
  polling c → Unmount ∉ trace → polling (run trace c).
Proof.
  revert c. induction trace as [|e trace IH]; intros c Hc Hu; [done|].
  apply not_elem_of_cons in Hu as [He Hu].
  by apply IH; [apply step_polling|].
Qed.

(** Once armed and cleared, the poll timer stays cleared: [pollRef]
    keeps the stale id, so [startPolling] never arms again. *)
Lemma step_cleared (c : component) (e : event) :
  cleared c → cleared (step c e).
Proof.
  intros [Hp Ht]. unfold cleared.
  destruct e as [|net| | |id net|]; [unfold step, handle..|].
  - by destruct (ws c) as [[]|].
  - destruct (ws c) as [[]|]; cbv beta iota;
      rewrite ?spawn_snd, ?refreshAll_pollRef, ?refreshAll_timers; done.
  - destruct (ws c) as [[]|]; cbv beta iota;
      rewrite ?(startPolling_armed c _ Hp); done.
  - destruct (ws c) as [[]|]; cbv beta iota;
      rewrite ?(set_ws_startPolling_armed c CLOSED _ Hp); done.
  - by rewrite Ht.
  - rewrite unmount_unfold.
    destruct (mounted c); [|done]. unfold cleaned. simpl.
    by rewrite Hp, Ht.
Qed.

Lemma run_cleared (trace : list event) (c : component) :
  cleared c → cleared (run trace c).
Proof.
  revert c. induction trace as [|e trace IH]; intros c Hc; [done|].
  by apply IH, step_cleared.
Qed.

(** The cleanup of a polling view clears its timer. *)
Lemma unmount_polling (c : component) :
  polling c → mounted c = true → cleared (step c Unmount).
Proof.
  intros [Hp Ht] Hm. rewrite unmount_unfold, Hm.
  unfold cleared, cleaned. simpl. rewrite Hp, Ht. split; [done|].
  reflexivity.
Qed.

(** An error or a close of the push channel on a view that never polled
    arms the poll timer. *)
Lemma channel_failure_starts_polling (c : component) (e : event) :
  poll_inv c → pollRef c = None →
  (∃ s, ws c = Some s ∧ s ≠ CLOSED) → e = WsError ∨ e = WsClose →
  polling (step c e).
Proof.
  unfold poll_inv. intros Hc Hp (s & Hw & Hs) He. rewrite Hp in Hc.
  destruct Hc as [Ht Hi]. unfold step, handle, polling.
  destruct He as [-> | ->]; rewrite Hw; destruct s; try done; cbv beta iota.
  all: try (rewrite (startPolling_unarmed c Hp); simpl; by rewrite Ht, Hi).
  all: unfold mbind, M_bind; cbn [set_ws];
    rewrite startPolling_unarmed by done; simpl; by rewrite Ht, Hi.
Qed.

(** Only the unmount event unmounts. *)
Lemma step_mounted (c : component) (e : event) :
  e ≠ Unmount → mounted (step c e) = mounted c.
Proof.
  intros He. destruct e as [|net| | |id net|]; [unfold step, handle..|done].
  - by destruct (ws c) as [[]|].
  - destruct (ws c) as [[]|]; cbv beta iota;
      rewrite ?spawn_snd, ?refreshAll_mounted; done.
  - destruct (ws c) as [[]|]; cbv beta iota;
      lazymatch goal with
      | |- context [startPolling] => apply startPolling_frame
      | |- _ => done
      end.
  - destruct (ws c) as [[]|]; cbv beta iota;
      lazymatch goal with
      | |- context [startPolling] =>
          apply (startPolling_frame (set_ws (Some CLOSED) c).2)
      | |- _ => done
      end.
  - destruct (list_find _ _) as [[? [? []]]|]; [|done].
    unfold run_callback, timer_callback.
    by rewrite spawn_snd, refreshAll_mounted.
Qed.

Lemma run_mounted (trace : list event) (c : component) :
  Unmount ∉ trace → mounted (run trace c) = mounted c.
Proof.
  revert c. induction trace as [|e trace IH]; intros c Hu; [done|].
  apply not_elem_of_cons in Hu as [He Hu]. simpl.
  by rewrite IH, step_mounted.
Qed.

Lemma run_app (t1 t2 : list event) (c : component) :
  run (t1 ++ t2) c = run t2 (run t1 c).
Proof. apply fold_left_app. Qed.

(** When the channel fails while the view is mounted, polling begins
    once, runs until the unmount, and is stopped by it for good. *)
Lemma polling_until_unmount (c : component) (e : event)
    (before after : list event) :
  poll_inv c → pollRef c = None → mounted c = true →
  (∃ s, ws c = Some s ∧ s ≠ CLOSED) → e = WsError ∨ e = WsClose →
  Unmount ∉ before →
  polling (run before (step c e))
  ∧ cleared (run (e :: before ++ Unmount :: after) c).
Proof.
  intros Hc Hp Hm Hw He Hb.
  assert (Hpoll : polling (run before (step c e))).
  { apply run_polling; [|done]. by apply channel_failure_starts_polling. }
  split; [done|].
  change (run (e :: before ++ Unmount :: after) c)
    with (run (before ++ Unmount :: after) (step c e)).
  rewrite run_app.
  change (run (Unmount :: after) ?x) with (run after (step x Unmount)).
  apply run_cleared, unmount_polling; [done|].
  rewrite run_mounted, step_mounted; [done| |done].
  by destruct He as [-> | ->].
Qed.

(** ** The close event that follows the cleanup *)

(** Nothing stops the timer of a leaked view: its socket is closed, so
    no handler runs but the timer's own, and the cleanup has run. *)
Lemma step_leaked (c : component) (e : event) : leaked c → leaked (step c e).
Proof.
  intros (Hm & Hw & Hp & Ht). unfold leaked.
  destruct e as [|net| | |id net|]; [unfold step, handle..|].
  - by rewrite Hw.
  - by rewrite Hw.
  - by rewrite Hw.
  - by rewrite Hw.
  - destruct (list_find _ _) as [[? [? []]]|]; [|done].
    unfold run_callback, timer_callback.
    by rewrite spawn_snd, refreshAll_mounted, refreshAll_ws,
      refreshAll_pollRef, refreshAll_timers.
  - rewrite unmount_unfold, Hm. done.
Qed.

Lemma run_leaked (trace : list event) (c : component) :
  leaked c → leaked (run trace c).
Proof.
  revert c. induction trace as [|e trace IH]; intros c Hc; [done|].
  by apply IH, step_leaked.
Qed.

(** C7, the failing trace: a view mounts, its push channel opens, and
    the view unmounts without ever having polled.  The cleanup closes
    the socket and finds no timer to clear; the close event that the
    socket then delivers still reaches [startPolling], which arms the
    5000 ms refresh timer on the unmounted view, and no later event
    clears it. *)
Theorem close_after_unmount_leaks_timer (net : network)
    (later : list event) :
  let unmounted := run [WsOpen; Unmount] (mount true net) in
  let c := step unmounted WsClose in
  mounted unmounted = false ∧ timers unmounted = []
  ∧ mounted c = false ∧ timers c = [poll_timer 1]
  ∧ timers (run later c) = [poll_timer 1].
Proof.
  cbv zeta. destruct (mount_connecting net) as (v & s & ->).
  assert (Hl : leaked (step (run [WsOpen; Unmount]
                 (Component v None (Some CONNECTING) true s [] 0 1)) WsClose))
    by (by vm_compute).
  repeat split; try reflexivity.
  by destruct (run_leaked later _ Hl) as (_ & _ & _ & ?).
Qed.

(** * Further facts about the Lorenz derivation *)

(** ** Shape of the curve *)

(** Whatever the totals are, the curve of a non-empty histogram has one
    point per bucket between the two anchors: it starts at (0,0), ends
    at (1,1) and has length input length plus 2; the empty histogram
    has the empty curve. *)
Theorem curve_shape (h : list bucket) :
  length (lorenzData h) = (if decide (h = []) then 0 else length h + 2)%nat
  ∧ (h ≠ [] →
       head (lorenzData h) = Some (Point (Fin 0) (Fin 0))
       ∧ last (lorenzData h) = Some (Point (Fin 1) (Fin 1))).
Proof.
  destruct (decide (h = [])) as [->|Hh]; [done|].
  rewrite lorenzData_nonempty by done. split.
  - simpl. rewrite length_app, walk_length, js_sort_length. simpl. lia.
  - intros _. split; [done|]. by rewrite last_cons, last_snoc.
Qed.

Lemma curve_shape_witness :
  head (lorenzData [bkt 5 0]) = Some (Point (Fin 0) (Fin 0))
  ∧ last (lorenzData [bkt 5 0]) = Some (Point (Fin 1) (Fin 1)).
Proof. apply (proj2 (curve_shape [bkt 5 0])). done. Defined.

(** ** The sorted histogram *)




(** * Further facts about the dashboard view *)

(** ** Chart helpers *)

(** Every cell index gets a colour of the palette, never [undefined],
    and the colours repeat with period ten. *)
Theorem pickColorByIndex_cycles (i : nat) :
  (∃ colour, pickColorByIndex i = Some colour ∧ colour ∈ PALETTE)
  ∧ pickColorByIndex (i + 10) = pickColorByIndex i.
Proof.
  unfold pickColorByIndex. split.
  - assert (Hi : (i mod length PALETTE < length PALETTE)%nat)
      by (apply Nat.mod_upper_bound; simpl; lia).
    destruct (lookup_lt_is_Some_2 _ _ Hi) as [colour Hc].
    exists colour. split; [done|]. by apply list_elem_of_lookup_2 in Hc.
  - change (length PALETTE) with 10%nat.
    replace (i + 10)%nat with (i + 1 * 10)%nat by lia.
    by rewrite Nat.Div0.mod_add.
Qed.

Lemma cell_fills_seq {A} (l : list A) :
  cell_fills l = pickColorByIndex <$> seq 0 (length l).
Proof.
  unfold cell_fills. apply imap_seq_0.
Qed.

(** A pie of at most ten merchants, which is what the refresh asks the
    server for, gets pairwise distinct fills. *)
Theorem cell_fills_distinct {A} (topMerchants : list A) :
  (length topMerchants ≤ 10)%nat → NoDup (cell_fills topMerchants).
Proof.
  intros Hlen. rewrite cell_fills_seq.
  remember (length topMerchants) as n eqn:Hn. clear Hn.
  do 11 (destruct n as [|n];
         [apply (bool_decide_unpack _); vm_compute; exact I|]).
  lia.
Qed.

Lemma cell_fills_distinct_witness :
  NoDup (cell_fills ["a"; "b"; "c"]).
Proof. apply cell_fills_distinct. simpl. lia. Defined.

Lemma filter_indexed_later {A} (keep : A → bool) (i : nat) (l : list A) :
  filter_indexed (λ v j, (j =? 0)%nat || keep v) (S i) l
  = filter (λ v, keep v) l.
Proof.
  revert i. induction l as [|v l IH]; intros i; [done|].
  simpl. rewrite IH, filter_cons. by destruct (keep v).
Qed.

Lemma trend_ticks_unfold (fraudTrend : list trend_point) :
  trend_ticks fraudTrend
  = match step_of <$> fraudTrend with
    | [] => []
    | v :: steps => v :: filter (λ v, Z.rem v 10 =? 0)%Z steps
    end.
Proof.
  unfold trend_ticks. destruct (step_of <$> fraudTrend) as [|v steps]; [done|].
  simpl. by rewrite (filter_indexed_later (λ v, Z.rem v 10 =? 0)%Z).
Qed.

#[local] Instance multiple_of_ten_dec (v : Z) : Decision (10 | v)%Z.
Proof.
  refine (cast_if (decide (Z.rem v 10 = 0)%Z)); by rewrite <-Z.rem_divide.
Defined.

(** The ticks of the step axis are the steps of the trend thinned out,
    in their order and with their repetitions: the first step is always
    a tick, and every later step is kept exactly when it is a multiple
    of ten. *)
Theorem trend_ticks_spec (fraudTrend : list trend_point) :
  trend_ticks fraudTrend
  = match step_of <$> fraudTrend with
    | [] => []
    | first :: later => first :: filter (λ v, (10 | v)%Z) later
    end.
Proof.
  rewrite trend_ticks_unfold.
  destruct (step_of <$> fraudTrend) as [|first later]; [done|].
  f_equal. apply list_filter_iff. intros v.
  by rewrite Is_true_true, Z.eqb_eq, Z.rem_divide.
Qed.

(** ** The socket address *)

Lemma strip_prefix_app (pat rest : string) :
  strip_prefix pat (pat +:+ rest) = Some rest.
Proof.
  induction pat as [|a pat IH]; [done|].
  simpl. by rewrite Ascii.eqb_refl.
Qed.

Lemma js_replace_prefix (pat rep rest : string) :
  js_replace pat rep (pat +:+ rest) = rep +:+ rest.
Proof.
  destruct pat as [|a pat]; [by destruct rest|].
  change (String a pat +:+ rest) with (String a (pat +:+ rest)).
  cbn [js_replace]. change (String a (pat +:+ rest)) with (String a pat +:+ rest).
  by rewrite strip_prefix_app.
Qed.

Lemma js_replace_absent (pat rep s : string) :
  occurs pat s = false → js_replace pat rep s = s.
Proof.
  induction s as [|c s IH]; simpl.
  - by destruct (strip_prefix pat "").
  - destruct (strip_prefix pat (String c s)); [done|].
    intros H. by rewrite IH.
Qed.

(** The socket address keeps the host of the API address and swaps the
    scheme: an address that starts with [http] has exactly that prefix
    replaced by [ws], so [https] becomes [wss] and a later [http] in
    the address is left alone; an address without [http] only gets the
    path appended. *)
Theorem wsUrl_scheme :
  (∀ rest, wsUrl ("http" +:+ rest) = "ws" +:+ rest +:+ "/ws/changes")
  ∧ (∀ rest, wsUrl ("https" +:+ rest) = "wss" +:+ rest +:+ "/ws/changes")
  ∧ (∀ address, occurs "http" address = false →
       wsUrl address = address +:+ "/ws/changes").
Proof.
  unfold wsUrl. split; [|split].
  - intros rest. by rewrite js_replace_prefix.
  - intros rest. change ("https" +:+ rest) with ("http" +:+ ("s" +:+ rest)).
    by rewrite js_replace_prefix.
  - intros address H. by rewrite js_replace_absent.
Qed.

Lemma wsUrl_scheme_witness :
  wsUrl "localhost:8000" = "localhost:8000/ws/changes".
Proof.
  apply (proj2 (proj2 wsUrl_scheme) "localhost:8000"). reflexivity.
Defined.

(** ** Refresh, again *)

Lemma refreshAll_sent (net : network) (c : component) :
  sent (refreshAll net c).2 = sent c ++ refresh_requests.
Proof. rewrite refreshAll_unfold. by destruct (Promise_all _). Qed.

Lemma refreshAll_file (net : network) (c : component) :
  file (view (refreshAll net c).2) = file (view c).
Proof. rewrite refreshAll_unfold. by destruct (Promise_all _). Qed.

Lemma refreshAll_newTx (net : network) (c : component) :
  newTx (view (refreshAll net c).2) = newTx (view c).
Proof. rewrite refreshAll_unfold. by destruct (Promise_all _). Qed.

(** Refreshing is idempotent: against the same answers, a second
    refresh has the outcome of the first and leaves the view that the
    first one left, whether the first succeeded or failed. *)
Theorem refresh_idempotent (net : network) (c : component) :
  let once := refreshAll net c in
  let twice := refreshAll net once.2 in
  twice.1 = once.1 ∧ view twice.2 = view once.2.
Proof.
  cbv zeta. rewrite (refreshAll_unfold net c).
  destruct (Promise_all (net <$> refresh_requests)) as [values|e] eqn:E;
    rewrite refreshAll_unfold, E; done.
Qed.

(** ** Upload with a file selected *)

Lemma onUpload_unfold (net : network) (c : component) (f : File) :
  file (view c) = Some f →
  onUpload net c
  = match net (uploadCSV f) with
    | Ok _ =>
        refreshAll net
          (with_view (without_file (view c)) (logged (uploadCSV f) c))
    | Throw e => (Throw e, logged (uploadCSV f) c)
    end.
Proof.
  intros Hf. unfold onUpload, mbind, M_bind, get_view. rewrite Hf.
  unfold send, await, setFile, update. cbv beta iota.
  destruct (net (uploadCSV f)); reflexivity.
Qed.

(** With a file selected, the upload is sent before anything else.  If
    it fails, the handler stops there: no dataset is requested, the
    file stays selected and the view is unchanged.  If it succeeds, the
    selection is cleared and a full refresh follows; the selection
    stays cleared even when that refresh fails. *)
Theorem upload_outcomes (net : network) (c : component) (f : File) :
  file (view c) = Some f →
  let outcome := onUpload net c in
  (∀ e, net (uploadCSV f) = Throw e →
     outcome = (Throw e, logged (uploadCSV f) c))
  ∧ (is_ok (net (uploadCSV f)) →
       sent outcome.2 = sent c ++ uploadCSV f :: refresh_requests
       ∧ file (view outcome.2) = None
       ∧ (is_ok outcome.1 ↔ Forall (λ q, is_ok (net q)) refresh_requests)).
Proof.
  intros Hf. cbv zeta. rewrite (onUpload_unfold net c f Hf). split.
  - by intros e ->.
  - destruct (net (uploadCSV f)) as [v|e]; [intros _|done].
    rewrite refreshAll_sent, refreshAll_file. simpl.
    split; [by rewrite <-app_assoc|]. split; [done|].
    rewrite refreshAll_unfold. split.
    + destruct (Promise_all _) as [vs|e] eqn:E; [|done]. intros _.
      by apply Promise_all_ok_inv, Forall_ok_fmap in E.
    + intros Hall. apply Forall_ok_fmap, Promise_all_resolves in Hall
        as [vs [-> _]]. done.
Qed.

Lemma upload_outcomes_witness :
  let c := with_view
    (ViewState JNull JNull JNull JNull (Some {| file_name := "tx.csv" |})
       JNull JNull JNull JNull JNull JNull) rendered in
  onUpload (failing "/ingest/csv") c
  = (Throw "Network Error", logged (uploadCSV {| file_name := "tx.csv" |}) c).
Proof.
  cbv zeta.
  refine (proj1 (upload_outcomes (failing "/ingest/csv") _
                   {| file_name := "tx.csv" |} _) "Network Error" _);
    reflexivity.
Defined.

(** Choosing files selects the first of them, and that is the file the
    next upload sends; an empty or missing choice clears the selection
    and disables the upload control. *)
Theorem chosen_file_is_uploaded (net : network) (c : component)
    (files : option (list File)) :
  let chosen := (onFileChange files c).2 in
  file (view chosen) = files ≫= head
  ∧ (upload_disabled (view chosen) = true ↔ files ≫= head = None)
  ∧ ∀ f rest, files = Some (f :: rest) →
      ∃ later, sent (onUpload net chosen).2
               = sent c ++ uploadCSV f :: later.
Proof.
  cbv zeta. split; [done|]. split.
  - unfold upload_disabled, onFileChange, setFile, update. simpl.
    by destruct (files ≫= head).
  - intros f rest ->.
    rewrite (onUpload_unfold net _ f) by done.
    destruct (net (uploadCSV f)) as [v|e].
    + rewrite refreshAll_sent. simpl. exists refresh_requests.
      by rewrite <-app_assoc.
    + by exists [].
Qed.

Lemma chosen_file_is_uploaded_witness :
  ∃ later,
    sent (onUpload (failing "/summary")
            (onFileChange (Some [{| file_name := "a.csv" |};
                                 {| file_name := "b.csv" |}]) rendered).2).2
    = sent rendered ++ uploadCSV {| file_name := "a.csv" |} :: later.
Proof.
  apply (proj2 (proj2 (chosen_file_is_uploaded (failing "/summary") rendered
    (Some [{| file_name := "a.csv" |}; {| file_name := "b.csv" |}])))
    {| file_name := "a.csv" |} [{| file_name := "b.csv" |}]).
  reflexivity.
Defined.

(** ** The transaction form *)

Lemma get_put_eq (k : string) (v : json) (fs : list (string * json)) :
  get k (put k v fs) = v.
Proof.
  induction fs as [|[k' v'] fs IH]; simpl.
  - by rewrite String.eqb_refl.
  - destruct (String.eqb k k') eqn:E; simpl; by rewrite E.
Qed.

Lemma get_put_ne (k k' : string) (v : json) (fs : list (string * json)) :
  k ≠ k' → get k' (put k v fs) = get k' fs.
Proof.
  intros Hk. apply String.eqb_neq in Hk.
  induction fs as [|[k0 v0] fs IH]; simpl.
  - by rewrite String.eqb_sym, Hk.
  - destruct (String.eqb k k0) eqn:E; simpl.
    + apply String.eqb_eq in E as <-. by rewrite String.eqb_sym, Hk.
    + by rewrite IH.
Qed.

(** Membership in a short list of literals. *)
Ltac in_literals := repeat first [apply list_elem_of_here | apply list_elem_of_further].
Ltac not_in_literals H :=
  repeat (apply elem_of_cons in H as [H|H]; [congruence|]);
  by apply elem_of_nil in H.

Lemma tx_payload_get_other (Number : json → json) (draft : json)
    (k : string) :
  "step" ≠ k → "amount" ≠ k → "fraud" ≠ k →
  get k (fields (tx_payload Number draft)) = get k (fields draft).
Proof.
  intros Hs Ha Hf. unfold tx_payload. cbn [fields].
  by rewrite !get_put_ne.
Qed.

(** The payload carries every field of the draft: [step], [amount] and
    [fraud] converted by [Number], every other field as it is. *)
Theorem tx_payload_fields (Number : json → json) (draft : json)
    (k : string) :
  get k (fields (tx_payload Number draft))
  = if bool_decide (k ∈ ["step"; "amount"; "fraud"])
    then Number (get k (fields draft))
    else get k (fields draft).
Proof.
  unfold tx_payload. cbn [fields].
  destruct (decide (k = "fraud")) as [->|Hf].
  { rewrite get_put_eq. by rewrite bool_decide_eq_true_2 by in_literals. }
  rewrite get_put_ne by done.
  destruct (decide (k = "amount")) as [->|Ha].
  { rewrite get_put_eq. by rewrite bool_decide_eq_true_2 by in_literals. }
  rewrite get_put_ne by done.
  destruct (decide (k = "step")) as [->|Hs].
  { rewrite get_put_eq. by rewrite bool_decide_eq_true_2 by in_literals. }
  rewrite get_put_ne by done.
  by rewrite bool_decide_eq_false_2 by (intros H; not_in_literals H).
Qed.

Lemma onChangeTx_unfold (k value : string) (c : component) :
  onChangeTx k value c
  = (Ok tt,
     with_view
       (ViewState (summary (view c)) (categorySpend (view c))
          (fraudTrend (view c)) (table (view c)) (file (view c))
          (JObj (put k (JStr value) (fields (newTx (view c)))))
          (amountByGender (view c)) (fraudByCategory (view c))
          (avgAmountByCategory (view c)) (topMerchants (view c))
          (amountHistogram (view c))) c).
Proof. reflexivity. Qed.

(** Typing into the form changes the draft only in the fields that
    have a control: whatever is typed, a field without one ([age],
    [zipcodeori], [zipmerchant]) reaches the payload with the value it
    had before. *)
Theorem form_leaves_uncontrolled_fields (Number : json → json)
    (edits : list (string * string)) (c : component) (k : string) :
  Forall (λ e, e.1 ∈ form_controls) edits → k ∉ form_controls →
  get k (fields (tx_payload Number (newTx (view (type_in edits c).2))))
  = get k (fields (newTx (view c))).
Proof.
  intros Hedits Hk.
  assert (Hne : ∀ k', k' ∈ form_controls → k' ≠ k) by (by intros k' ? ->).
  rewrite tx_payload_get_other by (apply Hne; unfold form_controls; in_literals).
  revert c. induction Hedits as [|[k0 v0] edits Hk0 _ IH]; intros c; [done|].
  cbn [type_in]. unfold mbind, M_bind. rewrite onChangeTx_unfold.
  rewrite IH. simpl. apply get_put_ne. intros ->. by apply Hk.
Qed.

Lemma form_leaves_uncontrolled_fields_witness :
  get "age" (fields (tx_payload number_id
    (newTx (view (type_in [("customer", "C42"); ("amount", "12.5")]
                    rendered).2))))
  = JStr "unknown".
Proof.
  apply (form_leaves_uncontrolled_fields number_id
           [("customer", "C42"); ("amount", "12.5")] rendered "age").
  - repeat constructor; apply (bool_decide_unpack _); vm_compute; exact I.
  - apply (bool_decide_unpack _). vm_compute. exact I.
Defined.

Lemma onAddTx_unfold (Number : json → json) (net : network)
    (c : component) :
  onAddTx Number net c
  = match net (addTransaction (tx_payload Number (newTx (view c)))) with
    | Ok _ =>
        refreshAll net
          (logged (addTransaction (tx_payload Number (newTx (view c)))) c)
    | Throw e =>
        (Throw e,
         logged (addTransaction (tx_payload Number (newTx (view c)))) c)
    end.
Proof.
  unfold onAddTx, mbind, M_bind, get_view, send, await. cbv beta iota.
  destruct (net _); reflexivity.
Qed.

(** Adding a transaction posts the payload first.  If the post fails,
    no dataset is requested and the view is unchanged; if it succeeds,
    a full refresh follows.  Either way the draft is not reset, and no
    dataset changes unless the post and all nine fetches succeed. *)
Theorem add_tx_outcomes (Number : json → json) (net : network)
    (c : component) :
  let post := addTransaction (tx_payload Number (newTx (view c))) in
  let outcome := onAddTx Number net c in
  sent outcome.2
  = sent c ++ post :: (if is_ok (net post) then refresh_requests else [])
  ∧ newTx (view outcome.2) = newTx (view c)
  ∧ (is_ok outcome.1
     ↔ is_ok (net post) ∧ Forall (λ q, is_ok (net q)) refresh_requests)
  ∧ (¬ is_ok outcome.1 → view outcome.2 = view c).
Proof.
  cbv zeta. rewrite onAddTx_unfold.
  destruct (net (addTransaction _)) as [v|e]; simpl.
  - rewrite refreshAll_sent, refreshAll_newTx. simpl.
    split; [by rewrite <-app_assoc|]. split; [done|].
    rewrite refreshAll_unfold.
    destruct (Promise_all _) as [vs|e] eqn:E; simpl.
    + split; [|tauto]. split; [|done]. intros _. split; [done|].
      by apply Promise_all_ok_inv, Forall_ok_fmap in E.
    + split; [|done]. split; [done|]. intros [_ Hall].
      apply Forall_ok_fmap, Promise_all_resolves in Hall as [vs [E' _]].
      congruence.
  - split; [done|]. split; [done|]. split; [|done]. tauto.
Qed.

Lemma add_tx_outcomes_witness :
  view (onAddTx number_id (failing "/transactions") rendered).2
  = view rendered.
Proof.
  apply (proj2 (proj2 (proj2
    (add_tx_outcomes number_id (failing "/transactions") rendered)))).
  intros H. vm_compute in H. exact H.
Defined.

(** ** Mounting *)

(** Mounting requests the nine datasets and tries the push channel.
    When the socket can be constructed the view waits on it and sets no
    timer; when the constructor throws, the view has no socket and
    polls from the start, with the one 5000 ms refresh timer. *)
Theorem mount_outcome (ws_ok : bool) (net : network) :
  let c := mount ws_ok net in
  sent c = refresh_requests
  ∧ view c = view (refreshAll net rendered).2
  ∧ mounted c = true
  ∧ (if ws_ok
     then ws c = Some CONNECTING ∧ pollRef c = None ∧ timers c = []
     else ws c = None ∧ pollRef c = Some 1%positive
          ∧ timers c = [poll_timer 1]).
Proof.
  cbv zeta. unfold mount, effect, mbind, M_bind, spawn. fold rendered.
  cbv beta iota.
  destruct (refreshAll_frame net rendered) as (Hp & Hw & Hm & Ht & Hi & _).
  pose proof (refreshAll_sent net rendered) as Hs.
  remember (refreshAll net rendered).2 as r eqn:Hr. clear Hr.
  destruct r as [v p w m s t i o]. simpl in Hp, Hw, Hm, Ht, Hi, Hs. subst.
  unfold try_catch, new_WebSocket. destruct ws_ok; [by repeat split|].
  cbv beta iota. rewrite startPolling_unarmed by done. by repeat split.
Qed.

Lemma polling_until_unmount_witness :
  let live := Component initial_view None (Some OPEN) true [] [] 0 1 in
  cleared (run [WsClose; WsOpen; Unmount; WsClose] live).
Proof.
  cbv zeta.
  refine (proj2 (polling_until_unmount
    (Component initial_view None (Some OPEN) true [] [] 0 1)
    WsClose [WsOpen] [WsClose] _ _ _ _ _ _)).
  - split; reflexivity.
  - reflexivity.
  - reflexivity.
  - exists OPEN. split; [reflexivity|discriminate].
  - by right.
  - apply not_elem_of_cons. split; [discriminate|apply not_elem_of_nil].
Defined.
